(** * ekit: slice insertion and the encrypted SQL column holders

    A shallow embedding of
      - [internal/slice.Add]    generic insertion into a slice,
      - [sqlx.EncryptColumn]    AES-GCM column, JSON fallback, no cached state,
      - [sqlx.SecureField]      AES-GCM field with a cipher context set up once,
                                msgpack fallback,
    followed by the properties of the specification that concern them.

    Conventions.  A Go [[]byte] or [string] is a list of integers in
    [0, 256); a Go integer is the mathematical integer it denotes, with the
    wrap-around of a conversion written out; a [float32]/[float64] is its
    IEEE-754 bit pattern, which is all that [encoding/binary] looks at.  A Go
    function that returns [(x, error)] returns an [outcome]; a run-time panic
    is the third case of [outcome].  The functions the holders import from
    [crypto/aes], [crypto/cipher], [io] and [encoding/binary] are written out
    from their documentation (FIPS-197, NIST SP 800-38D); [encoding/json] and
    [msgpack] are left abstract in the class [Runtime]. *)

From Stdlib Require Import ZArith List Lia Bool String Ascii.
From stdpp Require Import base list.
Import ListNotations.

Local Open Scope Z_scope.

(** ** Bytes, errors, outcomes *)

Abbreviation bytes := (list Z).

(** Every error value the modelled code can return.  The messages of the
    source are given in English next to each constructor. *)
Inductive error : Type :=
  (* imported packages *)
  | aes_KeySizeError (n : nat)      (* crypto/aes: invalid key size n *)
  | cipher_errOpen                  (* cipher: message authentication failed *)
  | io_EOF
  | io_ErrUnexpectedEOF
  | rand_Error                      (* the entropy source could not be read *)
  | json_MarshalError (code : Z)
  | json_UnmarshalError (code : Z)
  | msgpack_MarshalError (code : Z)
  | msgpack_UnmarshalError (code : Z)
  (* EncryptColumn *)
  | errInvalid                      (* the column is not valid *)
  | errKeyLengthInvalid             (* only 16/24/32 byte keys are supported *)
  | errScanSrc                      (* Scan does not support this src type *)
  (* SecureField *)
  | errSecretLength                 (* the secret must be 16/24/32 bytes long *)
  | errCipherInit (cause : error)   (* cipher initialisation failed: %w *)
  | errModeInit (cause : error)     (* creating the encryption mode failed: %w *)
  | errFieldInvalid                 (* invalid secure field value *)
  | errSerialize (cause : error)    (* serialising the data failed: %w *)
  | errNonce (cause : error)        (* generating the random number failed: %w *)
  | errSrcType                      (* unsupported data type: %T *)
  | errDataLength                   (* invalid length of the encrypted data *)
  | errDecrypt (cause : error)      (* decrypting the data failed: %w *)
  | errInt8Length                   (* length mismatch for int8 data *)
  | errInt16Length                  (* length mismatch for int16 data *)
  | errDeserialize (cause : error). (* deserialising the data failed: %w *)

Inductive outcome (A : Type) : Type :=
  | Ok (a : A)
  | Err (e : error)
  | Panic.
Arguments Ok {A} a.
Arguments Err {A} e.
Arguments Panic {A}.

(** [binary.BigEndian.PutUintN]: the [w] low-order bytes of [z], most
    significant first.  On a negative [z] this is the two's complement
    pattern, i.e. the conversion to the unsigned type of the same width. *)
Fixpoint be_bytes (w : nat) (z : Z) : bytes :=
  match w with
  | O => []
  | S w' => Z.land (Z.shiftr z (8 * Z.of_nat w')) 255 :: be_bytes w' z
  end.

(** [binary.BigEndian.UintN] *)
Definition be_uint (b : bytes) : Z :=
  fold_left (fun acc x => acc * 256 + x) b 0.

(** Conversion of an unsigned [bits]-bit pattern to the signed type of the
    same width, and the truncating conversion of any integer to it. *)
Definition to_signed (bits : Z) (u : Z) : Z :=
  if u <? 2 ^ (bits - 1) then u else u - 2 ^ bits.

Definition wrap_signed (bits : Z) (z : Z) : Z := to_signed bits (z mod 2 ^ bits).
Definition wrap_unsigned (bits : Z) (z : Z) : Z := z mod 2 ^ bits.

Definition xor_bytes (a b : bytes) : bytes := zip_with Z.lxor a b.

(** [subtle.ConstantTimeCompare(a, b) == 1] *)
Fixpoint bytes_eqb (a b : bytes) : bool :=
  match a, b with
  | [], [] => true
  | x :: a', y :: b' => (x =? y) && bytes_eqb a' b'
  | _, _ => false
  end.

(** Hexadecimal literals for test vectors. *)
Definition hexval (c : ascii) : Z :=
  let n := Z.of_N (N_of_ascii c) in
  if (48 <=? n) && (n <=? 57) then n - 48
  else if (97 <=? n) && (n <=? 102) then n - 87
  else 0.

Fixpoint hex (s : string) : bytes :=
  match s with
  | String a (String b r) => (16 * hexval a + hexval b) :: hex r
  | _ => []
  end.

(** ** internal/slice *)

Module slice.

(** [errs.NewErrIndexOutOfRange(length, index)]: the error value records the
    two integers it was built from. *)
Inductive error : Type :=
  | ErrIndexOutOfRange (length index : Z).

Section Add.
Context {T : Type}.
(** [var zeroValue T] *)
Variable zeroValue : T.

(** [src[i] = src[i-1]] *)
Definition assign_prev (src : list T) (i : nat) : list T :=
  match src !! (i - 1)%nat with
  | Some x => <[ i := x ]> src
  | None => src
  end.

(** [for i := len(src) - 1; i > index; i-- { src[i] = src[i-1] }],
    entered with the given [i]. *)
Fixpoint shift_right (index i : nat) (src : list T) : list T :=
  match i with
  | O => src
  | S j =>
      if (index <? i)%nat
      then shift_right index j (assign_prev src i)
      else src
  end.

(** [func Add[T any](src []T, element T, index int) ([]T, error)];
    the nil slice is the empty list. *)
Definition Add (src : list T) (element : T) (index : Z)
  : list T * option error :=
  let length := Z.of_nat (length src) in
  if (index <? 0) || (length <? index) then
    ([], Some (ErrIndexOutOfRange length index))
  else
    let src := src ++ [zeroValue] in
    let src := shift_right (Z.to_nat index) (List.length src - 1)%nat src in
    let src := <[ Z.to_nat index := element ]> src in
    (src, None).
End Add.

Section Add_in_place.
Context {T : Type}.
Variable zeroValue : T.

(** [Add] on an explicit backing array.  The caller's slice is [arr[:n]]
    and has spare capacity ([n < len(arr)]), so [append(src, zeroValue)]
    writes [arr[n]] in place and the loop and the final assignment write
    through to the array the caller still holds.  The result is that array
    after the call; the slice returned is its first [n + 1] elements.  (When
    the slice is full, [append] copies to a new array and the caller's array
    is not written; that case is [Add] itself.) *)
Definition Add_array (arr : list T) (n : nat) (element : T) (index : Z)
  : list T :=
  if (index <? 0) || (Z.of_nat n <? index) then arr
  else
    let arr := <[ n := zeroValue ]> arr in
    let arr := shift_right (Z.to_nat index) n arr in
    <[ Z.to_nat index := element ]> arr.
End Add_in_place.

Section Delete.
Context {T : Type}.
(** [var zero T] *)
Variable zero : T.

(** [src[i] = src[i+1]] *)
Definition assign_next (src : list T) (i : nat) : list T :=
  match src !! (i + 1)%nat with
  | Some x => <[ i := x ]> src
  | None => src
  end.

(** [for i := index; i+1 < length; i++ { src[i] = src[i+1] }], entered with
    the given [i]; [fuel] bounds the number of iterations. *)
Fixpoint shift_left (fuel : nat) (length i : nat) (src : list T) : list T :=
  match fuel with
  | O => src
  | S fuel' =>
      if (i + 1 <? length)%nat
      then shift_left fuel' length (i + 1) (assign_next src i)
      else src
  end.

(** The elements of the caller's slice, which shares its backing array with
    the slice returned, when [Delete] returns. *)
Definition Delete_array (src : list T) (index : Z) : list T :=
  let length := Z.of_nat (length src) in
  if (index <? 0) || (length <=? index) then src
  else shift_left (List.length src) (List.length src) (Z.to_nat index) src.

(** [func Delete[T any](src []T, index int) ([]T, T, error)] *)
Definition Delete (src : list T) (index : Z) : list T * T * option error :=
  let length := Z.of_nat (length src) in
  if (index <? 0) || (length <=? index) then
    ([], zero, Some (ErrIndexOutOfRange length index))
  else
    let res := nth (Z.to_nat index) src zero in
    let src := shift_left (List.length src) (List.length src)
                          (Z.to_nat index) src in
    let src := take (List.length src - 1)%nat src in
    (src, res, None).
End Delete.

End slice.

(** ** crypto/aes: the block cipher of FIPS-197 *)

Module aes.
(** Multiplication by x in GF(2^8) modulo x^8 + x^4 + x^3 + x + 1. *)
Definition xtime (a : Z) : Z :=
  let b := Z.land (Z.shiftl a 1) 255 in
  if Z.testbit a 7 then Z.lxor b 27 else b.

Fixpoint gmul_n (n : nat) (a b : Z) : Z :=
  match n with
  | O => 0
  | S n' =>
      Z.lxor (if Z.odd b then a else 0) (gmul_n n' (xtime a) (Z.shiftr b 1))
  end.
Definition gmul (a b : Z) : Z := gmul_n 8 a b.

Fixpoint gpow (n : nat) (a : Z) : Z :=
  match n with
  | O => 1
  | S n' => gmul a (gpow n' a)
  end.

Definition rotl8 (x : Z) (n : Z) : Z :=
  Z.land (Z.lor (Z.shiftl x n) (Z.shiftr x (8 - n))) 255.

(** The S-box: the inverse in GF(2^8) followed by the affine map. *)
Definition sbox_of (a : Z) : Z :=
  let b := gpow 254 a in
  Z.lxor (Z.lxor (Z.lxor (Z.lxor (Z.lxor b (rotl8 b 1)) (rotl8 b 2))
                    (rotl8 b 3)) (rotl8 b 4)) 99.

Definition sbox0 : list Z :=
  Eval vm_compute in map (fun i => sbox_of (Z.of_nat i)) (seq 0 256).

Definition sub (a : Z) : Z := nth (Z.to_nat a) sbox0 0.

Definition subw (w : bytes) : bytes := map sub w.

Definition rotw (w : bytes) : bytes :=
  match w with
  | a :: r => r ++ [a]
  | [] => []
  end.

(** The round constant x^n. *)
Fixpoint powx (n : nat) : Z :=
  match n with
  | O => 1
  | S n' => xtime (powx n')
  end.

(** Key expansion: [w] holds the words produced so far, oldest first. *)
Fixpoint expand (fuel : nat) (nk : nat) (w : list bytes) : list bytes :=
  match fuel with
  | O => w
  | S fuel' =>
      let i := length w in
      let prev := nth (i - 1) w [] in
      let t :=
        if (i mod nk =? 0)%nat then
          xor_bytes (subw (rotw prev)) [powx (i / nk - 1); 0; 0; 0]
        else if ((6 <? nk) && (i mod nk =? 4))%nat then subw prev
        else prev in
      expand fuel' nk (w ++ [xor_bytes (nth (i - nk) w []) t])
  end.

Fixpoint words (n : nat) (b : bytes) : list bytes :=
  match n with
  | O => []
  | S n' => take 4 b :: words n' (drop 4 b)
  end.

(** [aesCipher]: the number of rounds and the encryption key schedule. *)
Record Block := { rounds : nat; enc : list bytes }.

Definition expandKey (key : bytes) : Block :=
  let nk := (length key / 4)%nat in
  let nr := (nk + 6)%nat in
  {| rounds := nr; enc := expand (4 * (nr + 1) - nk) nk (words nk key) |}.

(** [func NewCipher(key []byte) (cipher.Block, error)] *)
Definition NewCipher (key : bytes) : outcome Block :=
  match length key with
  | 16%nat | 24%nat | 32%nat => Ok (expandKey key)
  | k => Err (aes_KeySizeError k)
  end.

Definition roundKey (c : Block) (r : nat) : bytes :=
  concat (take 4 (drop (4 * r) (enc c))).

Definition shiftRows (s : bytes) : bytes :=
  map (fun i => nth (4 * ((i / 4 + i mod 4) mod 4) + i mod 4)%nat s 0)
      (seq 0 16).

Definition mixColumn (c : bytes) : bytes :=
  match c with
  | [a0; a1; a2; a3] =>
      [ Z.lxor (Z.lxor (Z.lxor (gmul 2 a0) (gmul 3 a1)) a2) a3;
        Z.lxor (Z.lxor (Z.lxor a0 (gmul 2 a1)) (gmul 3 a2)) a3;
        Z.lxor (Z.lxor (Z.lxor a0 a1) (gmul 2 a2)) (gmul 3 a3);
        Z.lxor (Z.lxor (Z.lxor (gmul 3 a0) a1) a2) (gmul 2 a3) ]
  | _ => c
  end.

Definition mixColumns (s : bytes) : bytes :=
  concat (map mixColumn (words 4 s)).

Fixpoint middle (c : Block) (n : nat) (r : nat) (s : bytes) : bytes :=
  match n with
  | O => s
  | S n' =>
      middle c n' (S r)
        (xor_bytes (mixColumns (shiftRows (map sub s))) (roundKey c r))
  end.

(** [func (c *aesCipher) Encrypt(dst, src []byte)], one 16-byte block. *)
Definition Encrypt (c : Block) (src : bytes) : bytes :=
  let s := xor_bytes src (roundKey c 0) in
  let s := middle c (rounds c - 1) 1 s in
  xor_bytes (shiftRows (map sub s)) (roundKey c (rounds c)).
End aes.

(** ** crypto/cipher: Galois/Counter mode (NIST SP 800-38D)

    With the standard 12-byte nonce and 16-byte tag, which is what [NewGCM]
    returns.  The limit of about 64 GiB on the length of one message is
    outside the model. *)

Module cipher.
Definition gcmTagSize : nat := 16.
Definition gcmStandardNonceSize : nat := 12.

(** The reduction constant 11100001 || 0^120. *)
Definition gcmR : Z := Z.shiftl 225 120.

(** Product in GF(2^128).  A block is the integer its 16 bytes spell in
    big-endian order, so the leftmost bit of the block is bit 127. *)
Fixpoint mul_n (n : nat) (x v z : Z) : Z :=
  match n with
  | O => z
  | S n' =>
      let z' := if Z.testbit x (Z.of_nat n') then Z.lxor z v else z in
      let v' :=
        if Z.odd v then Z.lxor (Z.shiftr v 1) gcmR else Z.shiftr v 1 in
      mul_n n' x v' z'
  end.
Definition mul (x y : Z) : Z := mul_n 128 x y 0.

Fixpoint blocks (n : nat) (b : bytes) : list bytes :=
  match n with
  | O => []
  | S n' => take 16 b :: blocks n' (drop 16 b)
  end.

Definition nblocks (b : bytes) : nat := ((length b + 15) / 16)%nat.

Definition pad16 (b : bytes) : bytes := b ++ repeat 0 (16 - length b).

(** GHASH: absorb the blocks of [b], the last one zero-padded, into [y]. *)
Definition update (h : Z) (y : Z) (b : bytes) : Z :=
  fold_left (fun y blk => mul (Z.lxor y (be_uint (pad16 blk))) h)
            (blocks (nblocks b) b) y.

(** The [cipher.AEAD] returned by [NewGCM]; it wraps the block cipher. *)
Record gcm := { cipher : aes.Block }.

(** [func NewGCM(cipher Block) (AEAD, error)]: the only error is a block
    size other than 16, which an AES block never has. *)
Definition NewGCM (b : aes.Block) : outcome gcm := Ok {| cipher := b |}.

Definition NonceSize (g : gcm) : nat := gcmStandardNonceSize.
Definition Overhead (g : gcm) : nat := gcmTagSize.

(** The counter block: the 96-bit nonce followed by a 32-bit counter. *)
Definition counter (nonce : bytes) (n : Z) : bytes :=
  nonce ++ be_bytes 4 (n mod 2 ^ 32).

Definition keystream (g : gcm) (nonce : bytes) (n : nat) : bytes :=
  concat (map (fun j =>
                 aes.Encrypt (cipher g) (counter nonce (Z.of_nat j + 2)))
              (seq 0 n)).

(** Counter-mode encryption (and decryption) of [data]. *)
Definition counterCrypt (g : gcm) (nonce : bytes) (data : bytes) : bytes :=
  let ks := keystream g nonce (nblocks data) in
  imap (fun i x => Z.lxor x (nth i ks 0)) data.

(** The 16-byte authentication tag. *)
Definition auth (g : gcm) (nonce ciphertext additionalData : bytes) : bytes :=
  let h := be_uint (aes.Encrypt (cipher g) (repeat 0 16)) in
  let y := update h 0 additionalData in
  let y := update h y ciphertext in
  let lens := be_bytes 8 (8 * Z.of_nat (length additionalData))
              ++ be_bytes 8 (8 * Z.of_nat (length ciphertext)) in
  let y := mul (Z.lxor y (be_uint lens)) h in
  be_bytes 16 (Z.lxor y (be_uint (aes.Encrypt (cipher g) (counter nonce 1)))).

(** [Seal(dst, nonce, plaintext, additionalData []byte) []byte]: appends
    ciphertext and tag to [dst]; panics on a nonce of the wrong length. *)
Definition Seal (g : gcm) (dst nonce plaintext additionalData : bytes)
  : outcome bytes :=
  if negb (length nonce =? NonceSize g)%nat then Panic
  else
    let c := counterCrypt g nonce plaintext in
    Ok (dst ++ c ++ auth g nonce c additionalData).

(** [Open(dst, nonce, ciphertext, additionalData []byte) ([]byte, error)] *)
Definition Open (g : gcm) (dst nonce ciphertext additionalData : bytes)
  : outcome bytes :=
  if negb (length nonce =? NonceSize g)%nat then Panic
  else if (length ciphertext <? gcmTagSize)%nat then Err cipher_errOpen
  else
    let n := (length ciphertext - gcmTagSize)%nat in
    let tag := drop n ciphertext in
    let c := take n ciphertext in
    if bytes_eqb (auth g nonce c additionalData) tag
    then Ok (dst ++ counterCrypt g nonce c)
    else Err cipher_errOpen.
End cipher.

(** ** crypto/rand *)

(** [rand.Reader]: the bytes the entropy source still delivers before it
    fails.  Reading consumes them. *)
Definition Reader := bytes.

(** [io.ReadFull(rand.Reader, buf)] with [len(buf) = n], which is also
    [rand.Read(buf)]: exactly [n] fresh bytes, or the error of the source. *)
Definition ReadFull (r : Reader) (n : nat) : outcome bytes * Reader :=
  if (n <=? length r)%nat then (Ok (take n r), drop n r)
  else (Err rand_Error, []).

(** ** Go values *)

(** The size of [int] and [uint] on the platform. *)
Inductive Arch : Type := Arch32 | Arch64.

Definition intSize (a : Arch) : Z :=
  match a with
  | Arch32 => 32
  | Arch64 => 64
  end.

(** The fixed-size numeric types named in the type switches. *)
Inductive NumKind : Type :=
  | Int8 | Int16 | Int32 | Int64
  | Uint8 | Uint16 | Uint32 | Uint64
  | Float32 | Float64.

(** [binary.Size]: the encoded width in bytes. *)
Definition size (k : NumKind) : nat :=
  match k with
  | Int8 | Uint8 => 1
  | Int16 | Uint16 => 2
  | Int32 | Uint32 | Float32 => 4
  | Int64 | Uint64 | Float64 => 8
  end.

Definition signed (k : NumKind) : bool :=
  match k with
  | Int8 | Int16 | Int32 | Int64 => true
  | _ => false
  end.

(** A value of any other type (struct, map, slice, bool, ...), as the tree
    of its parts. *)
Inductive Obj : Type :=
  | ONull
  | OBool (b : bool)
  | ONumber (z : Z)
  | OText (s : bytes)
  | OCons (head tail : Obj).

(** A value of the type parameter [T].  [VNum k z] carries the integer [z]
    of kind [k], or for a float its bit pattern. *)
Inductive GoVal : Type :=
  | VString (s : bytes)
  | VBytes (b : bytes)
  | VNum (k : NumKind) (z : Z)
  | VInt (z : Z)
  | VUint (z : Z)
  | VOther (o : Obj).

Inductive GoType : Type :=
  | TString | TBytes | TNum (k : NumKind) | TInt | TUint | TOther.

Definition typeOf (v : GoVal) : GoType :=
  match v with
  | VString _ => TString
  | VBytes _ => TBytes
  | VNum k _ => TNum k
  | VInt _ => TInt
  | VUint _ => TUint
  | VOther _ => TOther
  end.

(** What [src any] can hold when the driver calls [Scan]. *)
Inductive Src : Type :=
  | SrcBytes (b : bytes)
  | SrcString (s : bytes)
  | SrcInt64 (z : Z)
  | SrcFloat64 (bits : Z)
  | SrcBool (b : bool)
  | SrcTime (unixNano : Z)
  | SrcNil.

(** The platform and the two serialisation libraries used for the types
    outside the switch.  [Unmarshal data &v] returns the new content of [v]
    (which it may have partly written even when it fails) and the error. *)
Class Runtime : Type := {
  arch : Arch;
  json_Marshal : GoVal -> outcome bytes;
  json_Unmarshal : bytes -> GoVal -> GoVal * option error;
  msgpack_Marshal : GoVal -> outcome bytes;
  msgpack_Unmarshal : bytes -> GoVal -> GoVal * option error
}.

(** ** encoding/binary, big-endian, on the fixed-size kinds *)

Module binary.
(** [binary.Write(buffer, binary.BigEndian, v)] into an empty
    [bytes.Buffer]; it cannot fail on these kinds. *)
Definition Write (k : NumKind) (z : Z) : bytes := be_bytes (size k) z.

Definition decode (k : NumKind) (bs : bytes) : Z :=
  let u := be_uint bs in
  if signed k then to_signed (8 * Z.of_nat (size k)) u else u.

(** [binary.Read(bytes.NewReader(data), binary.BigEndian, &v)] where [v]
    holds [old]: reads exactly [size k] bytes with [io.ReadFull] and leaves
    the rest of the reader alone.  The result is the content of [v] after
    the call and the error. *)
Definition Read (k : NumKind) (data : bytes) (old : Z) : Z * option error :=
  if (length data <? size k)%nat then
    match data with
    | [] => (old, Some io_EOF)
    | _ :: _ => (old, Some io_ErrUnexpectedEOF)
    end
  else (decode k (take (size k) data), None).
End binary.

(** ** sqlx.EncryptColumn *)

Module EncryptColumn.

(** [type EncryptColumn[T any] struct { Val T; Valid bool; Key string }] *)
Record t : Type := { Val : GoVal; Valid : bool; Key : bytes }.

Definition with_Val (e : t) (v : GoVal) : t :=
  {| Val := v; Valid := Valid e; Key := Key e |}.
Definition with_Valid (e : t) (b : bool) : t :=
  {| Val := Val e; Valid := b; Key := Key e |}.

Section methods.
Context `{Runtime}.

(** [func (e *EncryptColumn[T]) aesEncrypt(data []byte) ([]byte, error)] *)
Definition aesEncrypt (e : t) (data : bytes) (r : Reader)
  : outcome bytes * Reader :=
  match aes.NewCipher (Key e) with
  | Err err => (Err err, r)
  | Panic => (Panic, r)
  | Ok block =>
      match cipher.NewGCM block with
      | Err err => (Err err, r)
      | Panic => (Panic, r)
      | Ok gcm =>
          match ReadFull r (cipher.NonceSize gcm) with
          | (Ok nonce, r') => (cipher.Seal gcm nonce nonce data [], r')
          | (Err err, r') => (Err err, r')
          | (Panic, r') => (Panic, r')
          end
      end
  end.

(** [func (e *EncryptColumn[T]) aesDecrypt(data []byte) ([]byte, error)].
    In [nonce, ciphertext := data[:nonceSize], data[nonceSize:]] the
    second slice expression has the implicit upper bound [len(data)], so
    the statement panics whenever [len(data) < nonceSize]. *)
Definition aesDecrypt (e : t) (data : bytes) : outcome bytes :=
  match aes.NewCipher (Key e) with
  | Err err => Err err
  | Panic => Panic
  | Ok block =>
      match cipher.NewGCM block with
      | Err err => Err err
      | Panic => Panic
      | Ok gcm =>
          let nonceSize := cipher.NonceSize gcm in
          if (length data <? nonceSize)%nat then Panic
          else
            let nonce := take nonceSize data in
            let ciphertext := drop nonceSize data in
            cipher.Open gcm [] nonce ciphertext []
      end
  end.

(** The type switch of [Value]: the bytes to encrypt. *)
Definition encode (val : GoVal) : outcome bytes :=
  match val with
  | VString valT => Ok valT
  | VBytes valT => Ok valT
  | VNum k z => Ok (binary.Write k z)
  | VInt valT => Ok (binary.Write Int64 valT)     (* tmp := int64(valT) *)
  | VUint valT => Ok (binary.Write Uint64 valT)   (* tmp := uint64(valT) *)
  | VOther _ => json_Marshal val
  end.

(** [func (e EncryptColumn[T]) Value() (driver.Value, error)] *)
Definition Value (e : t) (r : Reader) : outcome bytes * Reader :=
  if negb (Valid e) then (Err errInvalid, r)
  else if negb ((length (Key e) =? 16) || (length (Key e) =? 24)
                || (length (Key e) =? 32))%nat
  then (Err errKeyLengthInvalid, r)
  else
    match encode (Val e) with
    | Err err => (Err err, r)
    | Panic => (Panic, r)
    | Ok b => aesEncrypt e b r
    end.

(** [func (e *EncryptColumn[T]) setValAfterDecrypt(deEncrypt []byte) error] *)
Definition setValAfterDecrypt (e : t) (deEncrypt : bytes)
  : t * option error :=
  match Val e with
  | VString _ => (with_Val e (VString deEncrypt), None)
  | VBytes _ => (with_Val e (VBytes deEncrypt), None)
  | VNum k old =>
      let (z, err) := binary.Read k deEncrypt old in
      (with_Val e (VNum k z), err)
  | VInt _ =>
      (* tmp := new(int64); err = binary.Read(.., tmp); the assignment
         of int(tmp) to Val follows whether or not err is nil *)
      let (tmp, err) := binary.Read Int64 deEncrypt 0 in
      (with_Val e (VInt (wrap_signed (intSize arch) tmp)), err)
  | VUint _ =>
      let (tmp, err) := binary.Read Uint64 deEncrypt 0 in
      (with_Val e (VUint (wrap_unsigned (intSize arch) tmp)), err)
  | VOther _ =>
      let (v, err) := json_Unmarshal deEncrypt (Val e) in
      (with_Val e v, err)
  end.

(** [func (e *EncryptColumn[T]) Scan(src any) error]: the holder after
    the call and what the call returned ([Ok tt] is the nil error). *)
Definition Scan (e : t) (src : Src) : t * outcome unit :=
  let decrypted :=
    match src with
    | SrcBytes value => aesDecrypt e value
    | SrcString value => aesDecrypt e value
    | _ => Err errScanSrc
    end in
  match decrypted with
  | Err err => (e, Err err)
  | Panic => (e, Panic)
  | Ok b =>
      let (e', err) := setValAfterDecrypt e b in
      (* e.Valid = err == nil; return err *)
      match err with
      | None => (with_Valid e' true, Ok tt)
      | Some err => (with_Valid e' false, Err err)
      end
  end.
End methods.
End EncryptColumn.

(** ** sqlx.SecureField *)

Module SecureField.

(** [type SecureField[T any] struct]; [aead] is [None] for the nil
    interface, [initOnce] tells whether the [sync.Once] has fired. *)
Record t : Type := {
  value : GoVal;
  isValid : bool;
  secret : bytes;
  aead : option cipher.gcm;
  initOnce : bool;
  initError : option error
}.

Definition with_value (sf : t) (v : GoVal) : t :=
  {| value := v; isValid := isValid sf; secret := secret sf;
     aead := aead sf; initOnce := initOnce sf; initError := initError sf |}.
Definition with_isValid (sf : t) (b : bool) : t :=
  {| value := value sf; isValid := b; secret := secret sf;
     aead := aead sf; initOnce := initOnce sf; initError := initError sf |}.
Definition with_aead (sf : t) (a : option cipher.gcm) : t :=
  {| value := value sf; isValid := isValid sf; secret := secret sf;
     aead := a; initOnce := initOnce sf; initError := initError sf |}.
Definition with_initOnce (sf : t) (b : bool) : t :=
  {| value := value sf; isValid := isValid sf; secret := secret sf;
     aead := aead sf; initOnce := b; initError := initError sf |}.
Definition with_initError (sf : t) (err : option error) : t :=
  {| value := value sf; isValid := isValid sf; secret := secret sf;
     aead := aead sf; initOnce := initOnce sf; initError := err |}.

(** [func (sf *SecureField[T]) setupCrypto()]: the body runs under
    [sf.initOnce.Do], that is only if the once has not fired yet. *)
Definition setupCrypto (sf : t) : t :=
  if initOnce sf then sf
  else
    let sf := with_initOnce sf true in
    if negb ((length (secret sf) =? 16) || (length (secret sf) =? 24)
             || (length (secret sf) =? 32))%nat
    then with_initError sf (Some errSecretLength)
    else
      match aes.NewCipher (secret sf) with
      | Err err => with_initError sf (Some (errCipherInit err))
      | Panic => sf
      | Ok block =>
          match cipher.NewGCM block with
          | Ok g => with_aead sf (Some g)
          | Err err => with_initError sf (Some (errModeInit err))
          | Panic => sf
          end
      end.

(** [func NewSecureField[T any](secret []byte, initialValue T) *SecureField[T]] *)
Definition NewSecureField (secret : bytes) (initialValue : GoVal) : t :=
  setupCrypto
    {| value := initialValue; isValid := true; secret := secret;
       aead := None; initOnce := false; initError := None |}.

(** The zero value [var sf SecureField[T]], holding the zero value [zero]
    of [T]. *)
Definition zeroValue (zero : GoVal) : t :=
  {| value := zero; isValid := false; secret := [];
     aead := None; initOnce := false; initError := None |}.

(** The two reinterpreting conversions; on lists of bytes both are the
    identity. *)
Definition convertStringToBytes (s : bytes) : bytes := s.
Definition convertBytesToString (b : bytes) : bytes := b.

Section methods.
Context `{Runtime}.

(** The type switch of [Value]: the bytes to encrypt. *)
Definition encode (v : GoVal) : outcome bytes :=
  match v with
  | VString v => Ok (convertStringToBytes v)
  | VBytes v => Ok v
  | VNum Int8 v => Ok [Z.land v 255]           (* []byte{byte(v)} *)
  | VNum Int16 v => Ok (be_bytes 2 v)          (* PutUint16(data, uint16(v)) *)
  | _ => msgpack_Marshal v
  end.

(** [func (sf *SecureField[T]) Value() (driver.Value, error)] *)
Definition Value (sf : t) (r : Reader) : outcome bytes * Reader :=
  match initError sf with
  | Some err => (Err err, r)
  | None =>
      if negb (isValid sf) then (Err errFieldInvalid, r)
      else
        match encode (value sf) with
        | Err err => (Err (errSerialize err), r)
        | Panic => (Panic, r)
        | Ok data =>
            match aead sf with
            | None => (Panic, r)          (* method call on a nil interface *)
            | Some g =>
                match ReadFull r (cipher.NonceSize g) with
                | (Ok nonce, r') => (cipher.Seal g nonce nonce data [], r')
                | (Err err, r') => (Err (errNonce err), r')
                | (Panic, r') => (Panic, r')
                end
            end
        end
  end.

(** The second type switch of [Scan], on the decrypted bytes: the holder
    after it, and the error if the switch returned one. *)
Definition decode (sf : t) (plainData : bytes) : t * option error :=
  match value sf with
  | VString _ => (with_value sf (VString (convertBytesToString plainData)), None)
  | VBytes _ => (with_value sf (VBytes plainData), None)
  | VNum Int8 _ =>
      if negb (length plainData =? 1)%nat then (sf, Some errInt8Length)
      else (with_value sf (VNum Int8 (to_signed 8 (nth 0 plainData 0))), None)
  | VNum Int16 _ =>
      if negb (length plainData =? 2)%nat then (sf, Some errInt16Length)
      else (with_value sf (VNum Int16 (to_signed 16 (be_uint plainData))), None)
  | _ =>
      match msgpack_Unmarshal plainData (value sf) with
      | (v, Some err) =>
          (with_isValid (with_value sf v) false, Some (errDeserialize err))
      | (v, None) => (with_value sf v, None)
      end
  end.

(** [func (sf *SecureField[T]) Scan(src any) error]: the holder after the
    call and what the call returned ([Ok tt] is the nil error). *)
Definition Scan (sf : t) (src : Src) : t * outcome unit :=
  match initError sf with
  | Some err => (sf, Err err)
  | None =>
      let encrypted :=
        match src with
        | SrcBytes v => Some v
        | SrcString v => Some v
        | _ => None
        end in
      match encrypted with
      | None => (sf, Err errSrcType)
      | Some encrypted =>
          match aead sf with
          | None => (sf, Panic)           (* method call on a nil interface *)
          | Some g =>
              let nonceSize := cipher.NonceSize g in
              if (length encrypted <? nonceSize)%nat
              then (sf, Err errDataLength)
              else
                match cipher.Open g [] (take nonceSize encrypted)
                                   (drop nonceSize encrypted) [] with
                | Err err => (with_isValid sf false, Err (errDecrypt err))
                | Panic => (sf, Panic)
                | Ok plainData =>
                    match decode sf plainData with
                    | (sf', Some err) => (sf', Err err)
                    | (sf', None) => (with_isValid sf' true, Ok tt)
                    end
                end
          end
      end
  end.
End methods.
End SecureField.

(** ** The error taxonomy of the specification

    The classes of section 7, with [CryptoContextInvalid] of section 4.2 and
    a class for the nonce-generation failure that section 7 mentions, and
    the class of each error value of the code. *)

Inductive ErrClass : Type :=
  | InvalidHolderState
  | KeyLengthInvalid
  | CryptoContextInvalid
  | EncodeError
  | DecodeError
  | EnvelopeTooShort
  | DecryptionFailed
  | UnsupportedSourceType
  | NonceGenerationFailed.

Definition classify (e : error) : ErrClass :=
  match e with
  | aes_KeySizeError _ | errKeyLengthInvalid | errSecretLength => KeyLengthInvalid
  | errCipherInit _ | errModeInit _ => CryptoContextInvalid
  | cipher_errOpen => DecryptionFailed
  | errDecrypt _ => DecryptionFailed
  | io_EOF | io_ErrUnexpectedEOF
  | json_UnmarshalError _ | msgpack_UnmarshalError _
  | errInt8Length | errInt16Length | errDeserialize _ => DecodeError
  | json_MarshalError _ | msgpack_MarshalError _ | errSerialize _ => EncodeError
  | rand_Error | errNonce _ => NonceGenerationFailed
  | errInvalid | errFieldInvalid => InvalidHolderState
  | errScanSrc | errSrcType => UnsupportedSourceType
  | errDataLength => EnvelopeTooShort
  end.

(** A value of the type it is tagged with: an integer within the range of
    its kind, a float as a bit pattern of its width. *)
Definition in_range `{Runtime} (v : GoVal) : Prop :=
  match v with
  | VNum k z =>
      if signed k
      then - 2 ^ (8 * Z.of_nat (size k) - 1) <= z < 2 ^ (8 * Z.of_nat (size k) - 1)
      else 0 <= z < 2 ^ (8 * Z.of_nat (size k))
  | VInt z => - 2 ^ (intSize arch - 1) <= z < 2 ^ (intSize arch - 1)
  | VUint z => 0 <= z < 2 ^ intSize arch
  | _ => True
  end.

(** ** Auxiliary notions for the statements *)

(** The key sizes of AES-128, AES-192 and AES-256. *)
Definition valid_key_length (n : nat) : Prop :=
  n = 16%nat \/ n = 24%nat \/ n = 32%nat.

Definition key_length_ok (n : nat) : bool :=
  ((n =? 16) || (n =? 24) || (n =? 32))%nat.

(** The GCM instance that [cipher.NewGCM(aes.NewCipher(key))] builds. *)
Definition gcm_of (key : bytes) : cipher.gcm :=
  {| cipher.cipher := aes.expandKey key |}.

(** A source the driver may hand to [Scan]: a byte slice or a string. *)
Definition raw_source (src : Src) : option bytes :=
  match src with
  | SrcBytes b => Some b
  | SrcString s => Some s
  | _ => None
  end.

(** The types the switches of [EncryptColumn] treat natively, and those the
    switches of [SecureField] do. *)
Definition primitive (ty : GoType) : bool :=
  match ty with
  | TOther => false
  | _ => true
  end.

Definition primitive_sf (ty : GoType) : bool :=
  match ty with
  | TString | TBytes | TNum Int8 | TNum Int16 => true
  | _ => false
  end.

(** The lifetime of a [SecureField].  Its fields are private to the
    package and only [Scan] writes them ([Value] writes nothing), so the
    states a holder passes through after [sf0] are those that a sequence of
    [Scan] calls produces. *)
Inductive after `{Runtime} (sf0 : SecureField.t) : SecureField.t -> Prop :=
  | after_start : after sf0 sf0
  | after_Scan (sf : SecureField.t) (src : Src) :
      after sf0 sf -> after sf0 (fst (SecureField.Scan sf src)).

(** A holder starts as the zero value of the struct or as the result of the
    constructor. *)
Definition reachable `{Runtime} (sf : SecureField.t) : Prop :=
  (exists zero, after (SecureField.zeroValue zero) sf) \/
  (exists secret initialValue,
      after (SecureField.NewSecureField secret initialValue) sf).

(** A 64-bit platform whose serialisation libraries reject every value they
    are given (as both do for a channel or a function value).  The closed
    examples below run on it; none of them leaves the typed switches. *)
Definition amd64 : Runtime :=
  {| arch := Arch64;
     json_Marshal := fun _ => Err (json_MarshalError 0);
     json_Unmarshal := fun _ v => (v, Some (json_UnmarshalError 0));
     msgpack_Marshal := fun _ => Err (msgpack_MarshalError 0);
     msgpack_Unmarshal := fun _ v => (v, Some (msgpack_UnmarshalError 0)) |}.

(** The same on a 32-bit platform. *)
Definition i386 : Runtime :=
  {| arch := Arch32;
     json_Marshal := fun _ => Err (json_MarshalError 0);
     json_Unmarshal := fun _ v => (v, Some (json_UnmarshalError 0));
     msgpack_Marshal := fun _ => Err (msgpack_MarshalError 0);
     msgpack_Unmarshal := fun _ v => (v, Some (msgpack_UnmarshalError 0)) |}.

(** * Properties *)

(** ** The imported primitives meet their published test vectors *)

Example sbox_first_entries : take 4 aes.sbox0 = hex "637c777b".
Proof. reflexivity. Qed.

(** FIPS-197, appendix C: example vectors for AES-128, AES-192, AES-256. *)
Example fips197_C1 :
  aes.Encrypt (aes.expandKey (hex "000102030405060708090a0b0c0d0e0f"))
              (hex "00112233445566778899aabbccddeeff")
  = hex "69c4e0d86a7b0430d8cdb78070b4c55a".
Proof. vm_compute. reflexivity. Qed.

Example fips197_C2 :
  aes.Encrypt
    (aes.expandKey (hex "000102030405060708090a0b0c0d0e0f1011121314151617"))
    (hex "00112233445566778899aabbccddeeff")
  = hex "dda97ca4864cdfe06eaf70a0ec0d7191".
Proof. vm_compute. reflexivity. Qed.

Example fips197_C3 :
  aes.Encrypt
    (aes.expandKey
       (hex "000102030405060708090a0b0c0d0e0f101112131415161718191a1b1c1d1e1f"))
    (hex "00112233445566778899aabbccddeeff")
  = hex "8ea2b7ca516745bfeafc49904b496089".
Proof. vm_compute. reflexivity. Qed.

(** The GCM specification's test cases 2, 4 (with additional data) and 14. *)
Example gcm_test_case_2 :
  cipher.Seal (gcm_of (hex "00000000000000000000000000000000")) []
    (hex "000000000000000000000000")
    (hex "00000000000000000000000000000000") []
  = Ok (hex "0388dace60b6a392f328c2b971b2fe78ab6e47d42cec13bdf53a67b21257bddf").
Proof. vm_compute. reflexivity. Qed.

Example gcm_test_case_4 :
  cipher.Seal (gcm_of (hex "feffe9928665731c6d6a8f9467308308")) []
    (hex "cafebabefacedbaddecaf888")
    (hex "d9313225f88406e5a55909c5aff5269a86a7a9531534f7da2e4c303d8a318a721c3c0c95956809532fcf0e2449a6b525b16aedf5aa0de657ba637b39")
    (hex "feedfacedeadbeeffeedfacedeadbeefabaddad2")
  = Ok (hex "42831ec2217774244b7221b784d0d49ce3aa212f2c02a4e035c17e2329aca12e21d514b25466931c7d8f6a5aac84aa051ba30b396a0aac973d58e0915bc94fbc3221a5db94fae95ae7121a47").
Proof. vm_compute. reflexivity. Qed.

Example gcm_test_case_14 :
  cipher.Seal
    (gcm_of (hex "0000000000000000000000000000000000000000000000000000000000000000"))
    [] (hex "000000000000000000000000")
    (hex "00000000000000000000000000000000") []
  = Ok (hex "cea7403d4d606b6e074ec5d3baf39d18d0d1c8a799996bf0265b98b5d48ab919").
Proof. vm_compute. reflexivity. Qed.

(** ** Big-endian encoding *)

Lemma length_be_bytes (w : nat) (z : Z) : length (be_bytes w z) = w.
Proof. induction w as [|w IH]; simpl; [reflexivity | now rewrite IH]. Qed.

Lemma be_uint_acc (b : bytes) (acc : Z) :
  fold_left (fun acc x => acc * 256 + x) b acc
  = acc * 256 ^ Z.of_nat (length b) + be_uint b.
Proof.
  unfold be_uint. revert acc. induction b as [|x b IH]; intros acc.
  - simpl. lia.
  - cbn [fold_left length]. rewrite IH. rewrite (IH (0 * 256 + x)).
    rewrite Nat2Z.inj_succ, Z.pow_succ_r by lia. ring.
Qed.

Lemma be_uint_cons (x : Z) (b : bytes) :
  be_uint (x :: b) = x * 256 ^ Z.of_nat (length b) + be_uint b.
Proof. unfold be_uint at 1. cbn [fold_left]. rewrite be_uint_acc. ring. Qed.

Lemma be_uint_be_bytes (w : nat) (z : Z) :
  be_uint (be_bytes w z) = z mod 2 ^ (8 * Z.of_nat w).
Proof.
  induction w as [|w IH].
  - simpl. now rewrite Z.mod_1_r.
  - cbn [be_bytes]. rewrite be_uint_cons, IH, length_be_bytes.
    change 255 with (Z.ones 8). rewrite Z.land_ones by lia.
    rewrite Z.shiftr_div_pow2 by lia.
    replace (8 * Z.of_nat (S w)) with (8 * Z.of_nat w + 8) by lia.
    rewrite Z.pow_add_r by lia.
    replace (256 ^ Z.of_nat w) with (2 ^ (8 * Z.of_nat w))
      by (rewrite Z.pow_mul_r by lia; reflexivity).
    set (m := 2 ^ (8 * Z.of_nat w)).
    assert (0 < m) by (apply Z.pow_pos_nonneg; lia).
    rewrite (Z.rem_mul_r z m (2 ^ 8)) by lia. ring.
Qed.

Lemma to_signed_mod (bits z : Z) :
  0 < bits ->
  - 2 ^ (bits - 1) <= z < 2 ^ (bits - 1) ->
  to_signed bits (z mod 2 ^ bits) = z.
Proof.
  intros Hb Hz. unfold to_signed.
  assert (Hp : 2 ^ bits = 2 * 2 ^ (bits - 1)).
  { replace bits with (Z.succ (bits - 1)) at 1 by lia.
    apply Z.pow_succ_r. lia. }
  assert (0 < 2 ^ (bits - 1)) by (apply Z.pow_pos_nonneg; lia).
  destruct (Z.neg_nonneg_cases z) as [Hneg|Hpos]; [|].
  - replace (z mod 2 ^ bits) with (z + 2 ^ bits).
    + destruct (Z.ltb_spec (z + 2 ^ bits) (2 ^ (bits - 1))); lia.
    + symmetry. rewrite <- (Z.mod_add z 1 (2 ^ bits)) by lia.
      rewrite Z.mul_1_l. apply Z.mod_small. lia.
  - rewrite Z.mod_small by lia.
    destruct (Z.ltb_spec z (2 ^ (bits - 1))); lia.
Qed.

Lemma bytes_eqb_refl (a : bytes) : bytes_eqb a a = true.
Proof. induction a as [|x a IH]; simpl; [reflexivity|]. now rewrite Z.eqb_refl. Qed.

(** ** The AEAD contract of [crypto/cipher] *)

Lemma length_counterCrypt g nonce data :
  length (cipher.counterCrypt g nonce data) = length data.
Proof. unfold cipher.counterCrypt. apply length_imap. Qed.

(** Counter mode is an involution. *)
Lemma counterCrypt_involutive g nonce data :
  cipher.counterCrypt g nonce (cipher.counterCrypt g nonce data) = data.
Proof.
  unfold cipher.counterCrypt at 1. unfold cipher.nblocks.
  rewrite length_counterCrypt. unfold cipher.counterCrypt, cipher.nblocks.
  set (ks := cipher.keystream _ _ _).
  apply list_eq; intros i. rewrite !list_lookup_imap.
  destruct (data !! i) as [x|]; simpl; [|reflexivity].
  f_equal. rewrite Z.lxor_assoc, Z.lxor_nilpotent. apply Z.lxor_0_r.
Qed.

Lemma length_auth g nonce c a : length (cipher.auth g nonce c a) = 16%nat.
Proof. unfold cipher.auth. apply length_be_bytes. Qed.

(** [Seal] appends the ciphertext, as long as the plaintext, and a 16-byte
    tag to [dst]. *)
Lemma Seal_layout g dst nonce plaintext a :
  length nonce = 12%nat ->
  exists c tag,
    cipher.Seal g dst nonce plaintext a = Ok (dst ++ c ++ tag) /\
    length c = length plaintext /\ length tag = 16%nat /\
    cipher.Open g [] nonce (c ++ tag) a = Ok plaintext.
Proof.
  intros Hn.
  exists (cipher.counterCrypt g nonce plaintext),
         (cipher.auth g nonce (cipher.counterCrypt g nonce plaintext) a).
  unfold cipher.Seal, cipher.Open, cipher.NonceSize, cipher.gcmStandardNonceSize,
    cipher.gcmTagSize.
  rewrite Hn. cbn [Nat.eqb negb].
  rewrite length_app, length_auth, length_counterCrypt.
  repeat split; try reflexivity.
  destruct (Nat.ltb_spec (length plaintext + 16) 16) as [?|_]; [lia|].
  replace (length plaintext + 16 - 16)%nat
    with (length (cipher.counterCrypt g nonce plaintext))
    by (rewrite length_counterCrypt; lia).
  rewrite take_app_length, drop_app_length, bytes_eqb_refl.
  rewrite counterCrypt_involutive. reflexivity.
Qed.

Lemma Open_short g nonce c a :
  length nonce = 12%nat -> (length c < 16)%nat ->
  cipher.Open g [] nonce c a = Err cipher_errOpen.
Proof.
  intros Hn Hc. unfold cipher.Open, cipher.NonceSize, cipher.gcmStandardNonceSize,
    cipher.gcmTagSize.
  rewrite Hn. cbn [Nat.eqb negb].
  destruct (Nat.ltb_spec (length c) 16); [reflexivity | lia].
Qed.

(** [Open] never panics on a nonce of the right length. *)
Lemma Open_no_panic g nonce c a :
  length nonce = 12%nat -> cipher.Open g [] nonce c a <> Panic.
Proof.
  intros Hn. unfold cipher.Open, cipher.NonceSize, cipher.gcmStandardNonceSize.
  rewrite Hn. cbn [Nat.eqb negb].
  destruct (_ <? _)%nat; [discriminate|].
  destruct (bytes_eqb _ _); discriminate.
Qed.

Lemma key_length_ok_spec (n : nat) :
  key_length_ok n = true <-> valid_key_length n.
Proof.
  unfold key_length_ok, valid_key_length.
  rewrite !orb_true_iff, !Nat.eqb_eq. tauto.
Qed.

Lemma NewCipher_ok (key : bytes) :
  valid_key_length (length key) -> aes.NewCipher key = Ok (aes.expandKey key).
Proof.
  unfold aes.NewCipher. intros [-> | [-> | ->]]; reflexivity.
Qed.

Lemma NewCipher_err (key : bytes) :
  ~ valid_key_length (length key) ->
  aes.NewCipher key = Err (aes_KeySizeError (length key)).
Proof.
  unfold aes.NewCipher, valid_key_length.
  generalize (length key) as n. intros n Hk.
  do 33 (destruct n as [|n]; [first [reflexivity | exfalso; lia]|]).
  reflexivity.
Qed.

(** ** internal/slice *)

Section slice_facts.
Context {T : Type} (zeroValue : T).
Import slice.

Lemma shift_right_lookup (index i : nat) (src : list T) (k : nat) :
  (i < length src)%nat ->
  shift_right index i src !! k =
    if decide (index < k <= i)%nat then src !! (k - 1)%nat else src !! k.
Proof.
  revert src. induction i as [|j IH]; intros src Hlen; simpl.
  - case_decide; [lia | reflexivity].
  - destruct (Nat.ltb_spec index (S j)) as [Hlt|Hge].
    + assert (Hj : is_Some (src !! j)) by (apply lookup_lt_is_Some; lia).
      destruct Hj as [x Hx].
      unfold assign_prev. replace (S j - 1)%nat with j by lia. rewrite Hx.
      rewrite IH by (rewrite length_insert; lia).
      destruct (decide (k = S j)) as [->|Hne].
      * rewrite decide_False by lia. rewrite decide_True by lia.
        rewrite list_lookup_insert_eq by lia.
        replace (S j - 1)%nat with j by lia. symmetry; exact Hx.
      * repeat case_decide; try lia;
          rewrite list_lookup_insert_ne by lia; reflexivity.
    + rewrite decide_False by lia. reflexivity.
Qed.

Lemma shift_right_length (index i : nat) (src : list T) :
  length (shift_right index i src) = length src.
Proof.
  revert src. induction i as [|j IH]; intros src; simpl; [reflexivity|].
  destruct (index <? S j)%nat; [|reflexivity].
  rewrite IH. unfold assign_prev.
  destruct (src !! (S j - 1)%nat); [apply length_insert | reflexivity].
Qed.

(** Within bounds, [Add] returns [src[:index] ++ [element] ++ src[index:]]. *)
Lemma Add_in_range (src : list T) (element : T) (index : Z) :
  0 <= index <= Z.of_nat (length src) ->
  Add zeroValue src element index =
    (take (Z.to_nat index) src ++ element :: drop (Z.to_nat index) src, None).
Proof.
  intros Hidx. unfold Add.
  destruct (Z.ltb_spec index 0) as [?|_]; [lia|].
  destruct (Z.ltb_spec (Z.of_nat (length src)) index) as [?|_]; [lia|].
  simpl. f_equal.
  set (n := Z.to_nat index). assert (Hn : (n <= length src)%nat) by lia.
  clearbody n. clear Hidx.
  assert (Hlen : length (src ++ [zeroValue]) = S (length src))
    by (rewrite length_app; simpl; lia).
  rewrite Hlen. replace (S (length src) - 1)%nat with (length src) by lia.
  apply list_eq; intros k.
  destruct (Nat.lt_total k n) as [Hlt|[->|Hgt]].
  - rewrite list_lookup_insert_ne by lia.
    rewrite shift_right_lookup by lia. rewrite decide_False by lia.
    rewrite lookup_app_l by lia.
    rewrite lookup_app_l by (rewrite length_take; lia).
    rewrite lookup_take_lt by lia. reflexivity.
  - rewrite list_lookup_insert_eq by (rewrite shift_right_length; lia).
    rewrite lookup_app_r by (rewrite length_take; lia).
    rewrite length_take. replace (n - n `min` length src)%nat with 0%nat by lia.
    reflexivity.
  - rewrite list_lookup_insert_ne by lia.
    rewrite shift_right_lookup by lia.
    assert (Hr : (take n src ++ element :: drop n src) !! k = src !! (k - 1)%nat).
    { rewrite lookup_app_r by (rewrite length_take; lia).
      rewrite length_take.
      replace (k - n `min` length src)%nat with (S (k - n - 1)) by lia.
      simpl. rewrite lookup_drop. f_equal. lia. }
    rewrite Hr. case_decide.
    + apply lookup_app_l. lia.
    + rewrite !lookup_ge_None_2; [reflexivity | lia |].
      rewrite length_app; simpl; lia.
Qed.

Lemma Add_out_of_range (src : list T) (element : T) (index : Z) :
  index < 0 \/ Z.of_nat (length src) < index ->
  Add zeroValue src element index =
    ([], Some (ErrIndexOutOfRange (Z.of_nat (length src)) index)).
Proof.
  intros Hidx. unfold Add.
  destruct (Z.ltb_spec index 0); [reflexivity|].
  destruct (Z.ltb_spec (Z.of_nat (length src)) index); [reflexivity | lia].
Qed.
End slice_facts.

(** The cases of [TestAdd]. *)
Example TestAdd_index_0 :
  slice.Add 0 [123; 100] 233 0 = ([233; 123; 100], None).
Proof. reflexivity. Qed.

Example TestAdd_index_middle :
  slice.Add 0 [123; 124; 125] 233 1 = ([123; 233; 124; 125], None).
Proof. reflexivity. Qed.

Example TestAdd_index_out_of_range :
  slice.Add 0 [123; 100] 0 12 = ([], Some (slice.ErrIndexOutOfRange 2 12)).
Proof. reflexivity. Qed.

Example TestAdd_index_less_than_0 :
  slice.Add 0 [123; 100] 0 (-1) = ([], Some (slice.ErrIndexOutOfRange 2 (-1))).
Proof. reflexivity. Qed.

Example TestAdd_index_last :
  slice.Add 0 [123; 100; 101; 102; 102; 102] 233 5
  = ([123; 100; 101; 102; 102; 233; 102], None).
Proof. reflexivity. Qed.

Example TestAdd_append_on_last :
  slice.Add 0 [123; 100; 101; 102; 102; 102] 233 6
  = ([123; 100; 101; 102; 102; 102; 233], None).
Proof. reflexivity. Qed.

(** C10.  For every slice [src], element [e] and integer [index]: if
    [0 <= index <= len(src)], [Add] returns, with a nil error, a slice of
    length [len(src) + 1] whose first [index] elements are those of [src],
    whose element at [index] is [e], and whose remaining elements are
    [src[index:]] in order; if [index < 0] or [index > len(src)], it returns
    the nil slice and the index-out-of-range error. *)
Theorem C10_Add_inserts_at_index
    {T : Type} (zeroValue : T) (src : list T) (e : T) (index : Z) :
  (0 <= index <= Z.of_nat (length src) ->
   exists res : list T,
     slice.Add zeroValue src e index = (res, None) /\
     length res = S (length src) /\
     take (Z.to_nat index) res = take (Z.to_nat index) src /\
     res !! Z.to_nat index = Some e /\
     drop (S (Z.to_nat index)) res = drop (Z.to_nat index) src) /\
  (index < 0 \/ Z.of_nat (length src) < index ->
   slice.Add zeroValue src e index
   = ([], Some (slice.ErrIndexOutOfRange (Z.of_nat (length src)) index))).
Proof.
  split; [|apply Add_out_of_range].
  intros Hidx. eexists. split; [apply Add_in_range; exact Hidx|].
  set (n := Z.to_nat index). assert (Hn : (n <= length src)%nat) by lia.
  assert (Hlen : length (take n src) = n) by (rewrite length_take; lia).
  repeat split.
  - rewrite length_app, Hlen. simpl. rewrite length_drop. lia.
  - rewrite take_app_length'; [reflexivity | now rewrite Hlen].
  - rewrite lookup_app_r by lia. rewrite Hlen, Nat.sub_diag. reflexivity.
  - rewrite (cons_middle e), app_assoc.
    rewrite drop_app_length'; [reflexivity|].
    rewrite length_app, Hlen. simpl. lia.
Qed.

Lemma C10_witness :
  (exists res : list Z,
     slice.Add 0 [123; 124; 125] 233 1 = (res, None) /\
     length res = 4%nat /\
     take 1 res = [123] /\
     res !! 1%nat = Some 233 /\
     drop 2 res = [124; 125]) /\
  slice.Add 0 [123; 100] 0 12 = ([], Some (slice.ErrIndexOutOfRange 2 12)).
Proof.
  split.
  - apply (proj1 (C10_Add_inserts_at_index 0 [123; 124; 125] 233 1)).
    simpl. lia.
  - apply (proj2 (C10_Add_inserts_at_index 0 [123; 100] 0 12)).
    simpl. lia.
Defined.

(** ** The envelope of [EncryptColumn] *)

Lemma ReadFull_inv (r : Reader) (n : nat) (b : bytes) (r' : Reader) :
  ReadFull r n = (Ok b, r') ->
  (n <= length r)%nat /\ b = take n r /\ r' = drop n r /\ length b = n.
Proof.
  unfold ReadFull. destruct (Nat.leb_spec n (length r)) as [Hle|Hgt].
  - intros [= <- <-]. repeat split; try assumption.
    rewrite length_take. lia.
  - discriminate.
Qed.

Lemma aesDecrypt_bad_key (e : EncryptColumn.t) (data : bytes) :
  ~ valid_key_length (length (EncryptColumn.Key e)) ->
  EncryptColumn.aesDecrypt e data
  = Err (aes_KeySizeError (length (EncryptColumn.Key e))).
Proof.
  intros Hk. unfold EncryptColumn.aesDecrypt. now rewrite NewCipher_err.
Qed.

Lemma aesDecrypt_short (e : EncryptColumn.t) (data : bytes) :
  valid_key_length (length (EncryptColumn.Key e)) ->
  (length data < 12)%nat ->
  EncryptColumn.aesDecrypt e data = Panic.
Proof.
  intros Hk Hlen. unfold EncryptColumn.aesDecrypt.
  rewrite NewCipher_ok by assumption.
  unfold cipher.NewGCM, cipher.NonceSize, cipher.gcmStandardNonceSize.
  destruct (Nat.ltb_spec (length data) 12); [reflexivity | lia].
Qed.

Lemma aesDecrypt_long (e : EncryptColumn.t) (data : bytes) :
  valid_key_length (length (EncryptColumn.Key e)) ->
  (12 <= length data)%nat ->
  EncryptColumn.aesDecrypt e data
  = cipher.Open (gcm_of (EncryptColumn.Key e)) [] (take 12 data) (drop 12 data) [].
Proof.
  intros Hk Hlen. unfold EncryptColumn.aesDecrypt.
  rewrite NewCipher_ok by assumption.
  unfold cipher.NewGCM, cipher.NonceSize, cipher.gcmStandardNonceSize.
  destruct (Nat.ltb_spec (length data) 12); [lia | reflexivity].
Qed.

(** What a successful [aesEncrypt] has done: it drew twelve bytes from the
    entropy source and returned them followed by ciphertext and tag. *)
Lemma aesEncrypt_inv (e : EncryptColumn.t) (x : bytes) (r r' : Reader)
    (env : bytes) :
  EncryptColumn.aesEncrypt e x r = (Ok env, r') ->
  valid_key_length (length (EncryptColumn.Key e)) /\
  (12 <= length r)%nat /\ r' = drop 12 r /\
  exists c tag,
    env = take 12 r ++ c ++ tag /\
    length c = length x /\ length tag = 16%nat /\
    cipher.Open (gcm_of (EncryptColumn.Key e)) [] (take 12 r) (c ++ tag) []
    = Ok x.
Proof.
  unfold EncryptColumn.aesEncrypt.
  destruct (key_length_ok (length (EncryptColumn.Key e))) eqn:Hk.
  - apply key_length_ok_spec in Hk. rewrite NewCipher_ok by assumption.
    unfold cipher.NewGCM, cipher.NonceSize, cipher.gcmStandardNonceSize.
    destruct (ReadFull r 12) as [[nonce| |] r1] eqn:Hr; try discriminate.
    apply ReadFull_inv in Hr. destruct Hr as (Hle & -> & -> & Hn).
    destruct (Seal_layout (gcm_of (EncryptColumn.Key e)) (take 12 r)
                (take 12 r) x [] Hn) as (c & tag & HS & Hc & Ht & HO).
    fold (gcm_of (EncryptColumn.Key e)). rewrite HS. intros [= <- <-].
    repeat split; try assumption. exists c, tag. repeat split; assumption.
  - assert (Hn : ~ valid_key_length (length (EncryptColumn.Key e))).
    { intros Hv. apply key_length_ok_spec in Hv. congruence. }
    rewrite NewCipher_err by assumption. discriminate.
Qed.

Lemma aesEncrypt_ok (e : EncryptColumn.t) (x : bytes) (r : Reader) :
  valid_key_length (length (EncryptColumn.Key e)) ->
  (12 <= length r)%nat ->
  exists env, EncryptColumn.aesEncrypt e x r = (Ok env, drop 12 r).
Proof.
  intros Hk Hr. unfold EncryptColumn.aesEncrypt.
  rewrite NewCipher_ok by assumption.
  unfold cipher.NewGCM, cipher.NonceSize, cipher.gcmStandardNonceSize, ReadFull.
  destruct (Nat.leb_spec 12 (length r)) as [_|?]; [|lia].
  assert (Hn : length (take 12 r) = 12%nat) by (rewrite length_take; lia).
  destruct (Seal_layout (gcm_of (EncryptColumn.Key e)) (take 12 r)
              (take 12 r) x [] Hn) as (c & tag & HS & _).
  fold (gcm_of (EncryptColumn.Key e)). rewrite HS. eauto.
Qed.

(** Opening what [aesEncrypt] sealed, under the same key. *)
Lemma aesDecrypt_aesEncrypt (e e' : EncryptColumn.t) (x : bytes)
    (r r' : Reader) (env : bytes) :
  EncryptColumn.Key e' = EncryptColumn.Key e ->
  EncryptColumn.aesEncrypt e x r = (Ok env, r') ->
  EncryptColumn.aesDecrypt e' env = Ok x.
Proof.
  intros HK HE. apply aesEncrypt_inv in HE.
  destruct HE as (Hk & Hr & _ & c & tag & -> & Hc & Ht & HO).
  assert (Hn : length (take 12 r) = 12%nat) by (rewrite length_take; lia).
  rewrite aesDecrypt_long; rewrite ?HK; try assumption.
  - rewrite take_app_length', drop_app_length' by congruence. exact HO.
  - rewrite length_app. lia.
Qed.

(** ** The cipher context of [SecureField] *)

Lemma NewSecureField_ok (secret : bytes) (v : GoVal) :
  valid_key_length (length secret) ->
  SecureField.NewSecureField secret v
  = {| SecureField.value := v; SecureField.isValid := true;
       SecureField.secret := secret;
       SecureField.aead := Some (gcm_of secret);
       SecureField.initOnce := true; SecureField.initError := None |}.
Proof.
  intros Hk. unfold SecureField.NewSecureField, SecureField.setupCrypto.
  cbn [SecureField.initOnce SecureField.with_initOnce SecureField.secret].
  apply key_length_ok_spec in Hk as Hb. unfold key_length_ok in Hb.
  rewrite Hb. cbn [negb]. rewrite NewCipher_ok by assumption. reflexivity.
Qed.

Lemma NewSecureField_bad (secret : bytes) (v : GoVal) :
  ~ valid_key_length (length secret) ->
  SecureField.NewSecureField secret v
  = {| SecureField.value := v; SecureField.isValid := true;
       SecureField.secret := secret; SecureField.aead := None;
       SecureField.initOnce := true;
       SecureField.initError := Some errSecretLength |}.
Proof.
  intros Hk. unfold SecureField.NewSecureField, SecureField.setupCrypto.
  cbn [SecureField.initOnce SecureField.with_initOnce SecureField.secret].
  destruct (key_length_ok (length secret)) eqn:Hb.
  - apply key_length_ok_spec in Hb. contradiction.
  - unfold key_length_ok in Hb. rewrite Hb. reflexivity.
Qed.

(** The once has fired when the constructor returns: a later [setupCrypto]
    does nothing. *)
Lemma setupCrypto_once (sf : SecureField.t) :
  SecureField.initOnce sf = true -> SecureField.setupCrypto sf = sf.
Proof. intros Ho. unfold SecureField.setupCrypto. now rewrite Ho. Qed.

Lemma setupCrypto_fires (sf : SecureField.t) :
  SecureField.initOnce (SecureField.setupCrypto sf) = true.
Proof.
  unfold SecureField.setupCrypto.
  destruct (SecureField.initOnce sf) eqn:Ho; [exact Ho|].
  destruct (negb _); [reflexivity|].
  destruct (aes.NewCipher _); reflexivity.
Qed.

Lemma setupCrypto_idempotent (sf : SecureField.t) :
  SecureField.setupCrypto (SecureField.setupCrypto sf)
  = SecureField.setupCrypto sf.
Proof. apply setupCrypto_once, setupCrypto_fires. Qed.

Section holder_facts.
Context `{Runtime}.

Lemma decode_initError (sf : SecureField.t) (p : bytes) :
  SecureField.initError (fst (SecureField.decode sf p))
  = SecureField.initError sf.
Proof.
  unfold SecureField.decode.
  destruct (SecureField.value sf) as [?|?|k ?|?|?|?]; try reflexivity;
    try (destruct (msgpack_Unmarshal p _) as [v [err|]]; reflexivity).
  destruct k; try (destruct (msgpack_Unmarshal p _) as [v [err|]]; reflexivity);
    destruct (negb _); reflexivity.
Qed.

(** [Scan] never writes [initError]. *)
Lemma Scan_initError (sf : SecureField.t) (src : Src) :
  SecureField.initError (fst (SecureField.Scan sf src))
  = SecureField.initError sf.
Proof.
  unfold SecureField.Scan.
  destruct (SecureField.initError sf) as [err|] eqn:Hi; [exact Hi|].
  destruct (match src with SrcBytes v | SrcString v => Some v | _ => None end)
    as [enc|]; [|exact Hi].
  destruct (SecureField.aead sf) as [g|]; [|exact Hi].
  destruct (_ <? _)%nat; [exact Hi|].
  destruct (cipher.Open _ _ _ _ _) as [p|e|]; try exact Hi.
  pose proof (decode_initError sf p) as Hd.
  destruct (SecureField.decode sf p) as [sf' [e|]]; simpl in *.
  all: congruence.
Qed.

(** A holder whose initialisation failed stays valid: [Scan] returns before
    it writes anything. *)
Lemma Scan_initError_fixed (sf : SecureField.t) (src : Src) (err : error) :
  SecureField.initError sf = Some err ->
  SecureField.Scan sf src = (sf, Err err).
Proof. intros Hi. unfold SecureField.Scan. now rewrite Hi. Qed.

Lemma after_invariant (sf0 sf : SecureField.t) :
  after sf0 sf ->
  (SecureField.initError sf0 <> None -> SecureField.isValid sf0 = true) ->
  SecureField.initError sf <> None -> SecureField.isValid sf = true.
Proof.
  induction 1 as [|sf src Ha IH]; intros H0; [exact H0|].
  intros Hi. rewrite Scan_initError in Hi.
  destruct (SecureField.initError sf) as [err|] eqn:He; [|congruence].
  rewrite (Scan_initError_fixed sf src err He). simpl.
  apply IH; [exact H0 | congruence].
Qed.

(** No holder is both invalid and carrying an initialisation error. *)
Lemma reachable_invariant (sf : SecureField.t) :
  reachable sf ->
  SecureField.initError sf <> None -> SecureField.isValid sf = true.
Proof.
  intros [[zero Ha] | (secret & v & Ha)]; apply (after_invariant _ _ Ha).
  - simpl. congruence.
  - intros _. unfold SecureField.NewSecureField, SecureField.setupCrypto.
    cbn [SecureField.initOnce SecureField.with_initOnce SecureField.secret].
    destruct (negb _); [reflexivity|].
    destruct (aes.NewCipher _); reflexivity.
Qed.

End holder_facts.

(** ** The guards of [Value] and [Scan] *)

Section guards.
Context `{Runtime}.

Lemma EncryptColumn_Value_invalid (e : EncryptColumn.t) (r : Reader) :
  EncryptColumn.Valid e = false ->
  EncryptColumn.Value e r = (Err errInvalid, r).
Proof. intros Hv. unfold EncryptColumn.Value. now rewrite Hv. Qed.

Lemma EncryptColumn_Value_bad_key (e : EncryptColumn.t) (r : Reader) :
  EncryptColumn.Valid e = true ->
  ~ valid_key_length (length (EncryptColumn.Key e)) ->
  EncryptColumn.Value e r = (Err errKeyLengthInvalid, r).
Proof.
  intros Hv Hk. unfold EncryptColumn.Value. rewrite Hv. cbn [negb].
  destruct (key_length_ok (length (EncryptColumn.Key e))) eqn:Hb.
  - apply key_length_ok_spec in Hb. contradiction.
  - unfold key_length_ok in Hb. now rewrite Hb.
Qed.

Lemma EncryptColumn_Scan_not_raw (e : EncryptColumn.t) (src : Src) :
  raw_source src = None ->
  EncryptColumn.Scan e src = (e, Err errScanSrc).
Proof. destruct src; simpl; intros; try discriminate; reflexivity. Qed.

Lemma EncryptColumn_Scan_raw (e : EncryptColumn.t) (src : Src) (b : bytes) :
  raw_source src = Some b ->
  EncryptColumn.Scan e src = EncryptColumn.Scan e (SrcBytes b).
Proof. destruct src; simpl; intros [= ->] || discriminate; reflexivity. Qed.

Lemma SecureField_Value_invalid (sf : SecureField.t) (r : Reader) :
  SecureField.initError sf = None ->
  SecureField.isValid sf = false ->
  SecureField.Value sf r = (Err errFieldInvalid, r).
Proof. intros Hi Hv. unfold SecureField.Value. now rewrite Hi, Hv. Qed.

Lemma SecureField_Value_initError (sf : SecureField.t) (r : Reader) err :
  SecureField.initError sf = Some err ->
  SecureField.Value sf r = (Err err, r).
Proof. intros Hi. unfold SecureField.Value. now rewrite Hi. Qed.

Lemma SecureField_Scan_not_raw (sf : SecureField.t) (src : Src) :
  SecureField.initError sf = None ->
  raw_source src = None ->
  SecureField.Scan sf src = (sf, Err errSrcType).
Proof.
  intros Hi Hs. unfold SecureField.Scan. rewrite Hi.
  destruct src; simpl in Hs; try discriminate; reflexivity.
Qed.

Lemma SecureField_Scan_raw (sf : SecureField.t) (src : Src) (b : bytes) :
  raw_source src = Some b ->
  SecureField.Scan sf src = SecureField.Scan sf (SrcBytes b).
Proof. destruct src; simpl; intros [= ->] || discriminate; reflexivity. Qed.

(** The length check of [SecureField.Scan]. *)
Lemma SecureField_Scan_short (sf : SecureField.t) (src : Src) (b : bytes) g :
  SecureField.initError sf = None ->
  SecureField.aead sf = Some g ->
  raw_source src = Some b ->
  (length b < 12)%nat ->
  SecureField.Scan sf src = (sf, Err errDataLength).
Proof.
  intros Hi Ha Hs Hlen. rewrite (SecureField_Scan_raw sf src b Hs).
  unfold SecureField.Scan. rewrite Hi, Ha.
  unfold cipher.NonceSize, cipher.gcmStandardNonceSize.
  destruct (Nat.ltb_spec (length b) 12); [reflexivity | lia].
Qed.

(** A holder with a secret of the wrong length never changes. *)
Lemma after_bad_secret (secret : bytes) (v : GoVal) (sf : SecureField.t) :
  ~ valid_key_length (length secret) ->
  after (SecureField.NewSecureField secret v) sf ->
  sf = SecureField.NewSecureField secret v.
Proof.
  intros Hk. induction 1 as [|sf src Ha IH]; [reflexivity|].
  rewrite IH. rewrite (Scan_initError_fixed _ src errSecretLength).
  - reflexivity.
  - now rewrite NewSecureField_bad.
Qed.

End guards.

(** C8.  A holder whose validity flag is false refuses to seal: [Value]
    returns the invalid-holder error and no envelope (and draws no nonce).
    For [EncryptColumn] this is every struct value; for [SecureField] every
    holder that the zero value or the constructor and later [Scan] calls can
    produce. *)
Theorem C8_invalid_holder_refuses_Value `{Runtime} :
  (forall (e : EncryptColumn.t) (r : Reader),
      EncryptColumn.Valid e = false ->
      EncryptColumn.Value e r = (Err errInvalid, r)) /\
  (forall (sf : SecureField.t) (r : Reader),
      reachable sf ->
      SecureField.isValid sf = false ->
      SecureField.Value sf r = (Err errFieldInvalid, r)) /\
  classify errInvalid = InvalidHolderState /\
  classify errFieldInvalid = InvalidHolderState.
Proof.
  split; [exact EncryptColumn_Value_invalid|].
  split; [|split; reflexivity].
  intros sf r Hr Hv. apply SecureField_Value_invalid; [|exact Hv].
  destruct (SecureField.initError sf) as [err|] eqn:Hi; [|reflexivity].
  pose proof (reachable_invariant sf Hr) as Hinv.
  rewrite Hi in Hinv. rewrite Hinv in Hv; [discriminate | congruence].
Qed.

(** C8 at a column marked invalid, and at a field that a failed decryption
    has just invalidated. *)
Lemma C8_witness :
  @EncryptColumn.Value amd64
    {| EncryptColumn.Val := VNum Int64 42; EncryptColumn.Valid := false;
       EncryptColumn.Key := repeat 0 32 |} (repeat 7 12)
  = (Err errInvalid, repeat 7 12) /\
  @SecureField.Value amd64
    (fst (@SecureField.Scan amd64
            (SecureField.NewSecureField (repeat 0 16) (VString []))
            (SrcBytes (repeat 0 28))))
    (repeat 7 12)
  = (Err errFieldInvalid, repeat 7 12).
Proof.
  split.
  - apply (proj1 (@C8_invalid_holder_refuses_Value amd64)). reflexivity.
  - apply (proj1 (proj2 (@C8_invalid_holder_refuses_Value amd64))).
    + right. do 2 eexists. apply after_Scan, after_start.
    + vm_compute. reflexivity.
Defined.

(** C9, as the code has it.  [EncryptColumn.Scan] rejects a source that is
    neither a byte slice nor a string with the unsupported-source error
    whatever the key; [SecureField.Scan] does so when the cipher context was
    set up without error, and otherwise returns the cached initialisation
    error before it looks at the source. *)
Theorem C9_unsupported_source `{Runtime} (src : Src) :
  raw_source src = None ->
  (forall e : EncryptColumn.t,
      EncryptColumn.Scan e src = (e, Err errScanSrc)) /\
  (forall sf : SecureField.t,
      SecureField.initError sf = None ->
      SecureField.Scan sf src = (sf, Err errSrcType)) /\
  (forall (sf : SecureField.t) (err : error),
      SecureField.initError sf = Some err ->
      SecureField.Scan sf src = (sf, Err err)) /\
  classify errScanSrc = UnsupportedSourceType /\
  classify errSrcType = UnsupportedSourceType.
Proof.
  intros Hs. repeat split.
  - intros e. now apply EncryptColumn_Scan_not_raw.
  - intros sf Hi. now apply SecureField_Scan_not_raw.
  - intros sf err Hi. now apply Scan_initError_fixed.
Qed.

Lemma C9_witness :
  (forall e : EncryptColumn.t,
      @EncryptColumn.Scan amd64 e (SrcInt64 5) = (e, Err errScanSrc)) /\
  @SecureField.Scan amd64
     (SecureField.NewSecureField (repeat 0 16) (VString [])) (SrcInt64 5)
  = (SecureField.NewSecureField (repeat 0 16) (VString []), Err errSrcType).
Proof.
  pose proof (@C9_unsupported_source amd64 (SrcInt64 5) eq_refl)
    as (HE & HS & _).
  split; [exact HE|]. apply HS. reflexivity.
Defined.

(** C9 as stated fails: a [SecureField] built with a 15-byte secret answers
    an integer source with its key-length error, not with the
    unsupported-source error. *)
Lemma C9_counterexample :
  let sf := SecureField.NewSecureField (repeat 0 15) (VString []) in
  @SecureField.Scan amd64 sf (SrcInt64 5) = (sf, Err errSecretLength) /\
  raw_source (SrcInt64 5) = None /\
  classify errSecretLength <> UnsupportedSourceType.
Proof. repeat split. discriminate. Qed.

(** C4.  [EncryptColumn.aesDecrypt] slices the envelope without comparing
    its length with the nonce size: on every input shorter than twelve
    bytes, under a key of valid length, [Scan] panics where the claim asks
    for the too-short error, and the holder is left as it was. *)
Theorem C4_EncryptColumn_short_envelope_panics `{Runtime}
    (e : EncryptColumn.t) (src : Src) (data : bytes) :
  valid_key_length (length (EncryptColumn.Key e)) ->
  raw_source src = Some data ->
  (length data < 12)%nat ->
  EncryptColumn.aesDecrypt e data = Panic /\
  EncryptColumn.Scan e src = (e, Panic).
Proof.
  intros Hk Hs Hlen. pose proof (aesDecrypt_short e data Hk Hlen) as Hd.
  split; [exact Hd|].
  rewrite (EncryptColumn_Scan_raw e src data Hs).
  unfold EncryptColumn.Scan. now rewrite Hd.
Qed.

Lemma C4_witness :
  let e := {| EncryptColumn.Val := VString []; EncryptColumn.Valid := true;
              EncryptColumn.Key := repeat 0 16 |} in
  EncryptColumn.aesDecrypt e [1; 2; 3] = Panic /\
  @EncryptColumn.Scan amd64 e (SrcBytes [1; 2; 3]) = (e, Panic).
Proof.
  intros e.
  apply (@C4_EncryptColumn_short_envelope_panics amd64 e (SrcBytes [1; 2; 3])
           [1; 2; 3]).
  - left. reflexivity.
  - reflexivity.
  - simpl. lia.
Defined.

(** The sibling holder does what C4 asks: [SecureField.Scan] compares the
    length with the nonce size before it slices. *)
Lemma SecureField_short_envelope_rejected `{Runtime}
    (secret : bytes) (v : GoVal) (sf : SecureField.t) (src : Src) (b : bytes) :
  valid_key_length (length secret) ->
  after (SecureField.NewSecureField secret v) sf ->
  raw_source src = Some b ->
  (length b < 12)%nat ->
  SecureField.Scan sf src = (sf, Err errDataLength) /\
  classify errDataLength = EnvelopeTooShort.
Proof.
  intros Hk Ha Hs Hlen. split; [|reflexivity].
  assert (Hinv : SecureField.initError sf = None /\
                 SecureField.aead sf = Some (gcm_of secret)).
  { clear Hs Hlen. induction Ha as [|sf src' Ha IH].
    - rewrite NewSecureField_ok by assumption. split; reflexivity.
    - destruct IH as [Hi Hg]. split; [now rewrite Scan_initError|].
      unfold SecureField.Scan. rewrite Hi, Hg.
      destruct (match src' with SrcBytes v0 | SrcString v0 => Some v0
                | _ => None end) as [enc|]; [|exact Hg].
      destruct (_ <? _)%nat; [exact Hg|].
      destruct (cipher.Open _ _ _ _ _) as [p|err|]; try exact Hg.
      unfold SecureField.decode.
      destruct (SecureField.value sf) as [?|?|k ?|?|?|?];
        try exact Hg;
        try (destruct (msgpack_Unmarshal p _) as [w [err|]]; exact Hg).
      destruct k;
        try (destruct (msgpack_Unmarshal p _) as [w [err|]]; exact Hg);
        destruct (negb _); exact Hg. }
  destruct Hinv as [Hi Hg].
  now apply (SecureField_Scan_short sf src b (gcm_of secret)).
Qed.

(** C3, as the code has it.  A [SecureField] built with a secret whose
    length is not 16, 24 or 32 validates it once, in the constructor, and
    from then on every [Value] and every [Scan] returns the same cached
    key-length error and leaves the holder as it is.  An [EncryptColumn] keeps
    no cipher context: it checks the key again on every call, behind its
    validity guard in [Value] and behind its source-type switch in [Scan]. *)
Theorem C3_key_length_validation `{Runtime} (secret : bytes) :
  ~ valid_key_length (length secret) ->
  (forall (v : GoVal) (sf : SecureField.t),
      after (SecureField.NewSecureField secret v) sf ->
      SecureField.initError sf = Some errSecretLength /\
      SecureField.setupCrypto sf = sf /\
      (forall r, SecureField.Value sf r = (Err errSecretLength, r)) /\
      (forall src, SecureField.Scan sf src = (sf, Err errSecretLength))) /\
  (forall e : EncryptColumn.t,
      EncryptColumn.Key e = secret ->
      (forall r, EncryptColumn.Valid e = true ->
                 EncryptColumn.Value e r = (Err errKeyLengthInvalid, r)) /\
      (forall r, EncryptColumn.Valid e = false ->
                 EncryptColumn.Value e r = (Err errInvalid, r)) /\
      (forall src b, raw_source src = Some b ->
                     EncryptColumn.Scan e src
                     = (e, Err (aes_KeySizeError (length secret)))) /\
      (forall src, raw_source src = None ->
                   EncryptColumn.Scan e src = (e, Err errScanSrc))) /\
  classify errSecretLength = KeyLengthInvalid /\
  classify errKeyLengthInvalid = KeyLengthInvalid /\
  classify (aes_KeySizeError (length secret)) = KeyLengthInvalid.
Proof.
  intros Hk. split; [|split; [|repeat split]].
  - intros v sf Ha. rewrite (after_bad_secret secret v sf Hk Ha).
    assert (Hi : SecureField.initError (SecureField.NewSecureField secret v)
                 = Some errSecretLength)
      by now rewrite NewSecureField_bad.
    split; [exact Hi|]. split; [|split].
    + apply setupCrypto_once. now rewrite NewSecureField_bad.
    + intros r. now apply SecureField_Value_initError.
    + intros src. now apply Scan_initError_fixed.
  - intros e HK. subst secret. repeat split.
    + intros r Hv. now apply EncryptColumn_Value_bad_key.
    + intros r Hv. now apply EncryptColumn_Value_invalid.
    + intros src b Hs. rewrite (EncryptColumn_Scan_raw e src b Hs).
      unfold EncryptColumn.Scan. now rewrite aesDecrypt_bad_key.
    + intros src Hs. now apply EncryptColumn_Scan_not_raw.
Qed.

Lemma C3_witness :
  let sf := SecureField.NewSecureField (repeat 0 15) (VString []) in
  @SecureField.Value amd64 sf (repeat 7 12) = (Err errSecretLength, repeat 7 12) /\
  @SecureField.Scan amd64 sf (SrcBytes (repeat 0 28)) = (sf, Err errSecretLength).
Proof.
  intros sf.
  assert (Hk : ~ valid_key_length (length (repeat 0 15)))
    by (unfold valid_key_length; simpl; lia).
  destruct (@C3_key_length_validation amd64 (repeat 0 15) Hk) as [HS _].
  destruct (HS (VString []) sf (after_start _)) as (_ & _ & HV & HSc).
  split; [apply HV | apply HSc].
Defined.

(** C3 as stated fails: with a 15-byte key, [Value] of an invalid column
    returns the invalid-holder error and [Scan] of an integer source the
    unsupported-source error; neither is the key-length error. *)
Lemma C3_counterexample :
  let invalid := {| EncryptColumn.Val := VString [];
                    EncryptColumn.Valid := false;
                    EncryptColumn.Key := repeat 0 15 |} in
  let valid := {| EncryptColumn.Val := VString [];
                  EncryptColumn.Valid := true;
                  EncryptColumn.Key := repeat 0 15 |} in
  ~ valid_key_length (length (repeat 0 15)) /\
  @EncryptColumn.Value amd64 invalid (repeat 7 12)
  = (Err errInvalid, repeat 7 12) /\
  classify errInvalid <> KeyLengthInvalid /\
  @EncryptColumn.Scan amd64 valid (SrcInt64 5) = (valid, Err errScanSrc) /\
  classify errScanSrc <> KeyLengthInvalid.
Proof.
  repeat split; try discriminate.
  unfold valid_key_length. simpl. lia.
Qed.

(** ** The codecs *)

Lemma binary_Read_Write (k : NumKind) (z old : Z) :
  (if signed k
   then - 2 ^ (8 * Z.of_nat (size k) - 1) <= z < 2 ^ (8 * Z.of_nat (size k) - 1)
   else 0 <= z < 2 ^ (8 * Z.of_nat (size k))) ->
  binary.Read k (binary.Write k z) old = (z, None).
Proof.
  intros Hz. unfold binary.Read, binary.Write.
  rewrite length_be_bytes.
  destruct (Nat.ltb_spec (size k) (size k)) as [?|_]; [lia|].
  rewrite take_ge by (rewrite length_be_bytes; lia).
  unfold binary.decode. rewrite be_uint_be_bytes. f_equal.
  destruct (signed k).
  - apply to_signed_mod; [destruct k; simpl; lia | exact Hz].
  - apply Z.mod_small. exact Hz.
Qed.

Lemma binary_Read_short (k : NumKind) (data : bytes) (old : Z) :
  (length data < size k)%nat ->
  exists err, binary.Read k data old = (old, Some err) /\
              classify err = DecodeError.
Proof.
  intros Hlen. unfold binary.Read.
  destruct (Nat.ltb_spec (length data) (size k)) as [_|?]; [|lia].
  destruct data; eexists; split; reflexivity.
Qed.

Lemma binary_Read_long (k : NumKind) (data : bytes) (old : Z) :
  (size k <= length data)%nat ->
  binary.Read k data old = (binary.decode k (take (size k) data), None).
Proof.
  intros Hlen. unfold binary.Read.
  destruct (Nat.ltb_spec (length data) (size k)) as [?|_]; [lia | reflexivity].
Qed.

Section codec_facts.
Context `{Runtime}.

Lemma with_Val_same (e : EncryptColumn.t) (v : GoVal) :
  EncryptColumn.Val e = v -> EncryptColumn.with_Val e v = e.
Proof. destruct e; simpl; intros ->; reflexivity. Qed.

(** Decoding what [EncryptColumn] encoded, for the types of its switch. *)
Lemma EncryptColumn_decode_encode (e : EncryptColumn.t) (v : GoVal) :
  primitive (typeOf v) = true ->
  typeOf (EncryptColumn.Val e) = typeOf v ->
  in_range v ->
  exists b,
    EncryptColumn.encode v = Ok b /\
    EncryptColumn.setValAfterDecrypt e b = (EncryptColumn.with_Val e v, None).
Proof.
  intros Hp Ht Hr. unfold EncryptColumn.setValAfterDecrypt.
  destruct v as [s|b|k z|z|z|o]; simpl in Hp; try discriminate;
    destruct (EncryptColumn.Val e) as [s'|b'|k' z'|z'|z'|o'];
    simpl in Ht; try discriminate; eexists; (split; [reflexivity|]).
  - reflexivity.
  - reflexivity.
  - injection Ht as ->. now rewrite binary_Read_Write.
  - assert (H64 : - 2 ^ 63 <= z < 2 ^ 63).
    { simpl in Hr. destruct arch; simpl in Hr; lia. }
    rewrite binary_Read_Write by exact H64.
    unfold wrap_signed. rewrite to_signed_mod; [reflexivity| |exact Hr].
    destruct arch; simpl; lia.
  - assert (H64 : 0 <= z < 2 ^ 64).
    { simpl in Hr. destruct arch; simpl in Hr; lia. }
    rewrite binary_Read_Write by exact H64.
    unfold wrap_unsigned. rewrite Z.mod_small; [reflexivity | exact Hr].
Qed.

(** Decoding what [SecureField] encoded, for the types of its switch. *)
Lemma SecureField_decode_encode (sf : SecureField.t) (v : GoVal) :
  primitive_sf (typeOf v) = true ->
  typeOf (SecureField.value sf) = typeOf v ->
  in_range v ->
  exists b,
    SecureField.encode v = Ok b /\
    SecureField.decode sf b = (SecureField.with_value sf v, None).
Proof.
  intros Hp Ht Hr. unfold SecureField.decode.
  destruct v as [s|b|k z|z|z|o]; simpl in Hp; try discriminate;
    destruct (SecureField.value sf) as [s'|b'|k' z'|z'|z'|o'];
    simpl in Ht; try discriminate.
  - eexists; split; reflexivity.
  - eexists; split; reflexivity.
  - injection Ht as ->.
    destruct k; simpl in Hp; try discriminate; simpl in Hr;
      (eexists; split; [reflexivity|]).
    + cbn [length Nat.eqb negb nth].
      change 255 with (Z.ones 8). rewrite Z.land_ones by lia.
      rewrite to_signed_mod; [reflexivity | lia | simpl; lia].
    + rewrite length_be_bytes. cbn [Nat.eqb negb].
      rewrite be_uint_be_bytes.
      rewrite to_signed_mod; [reflexivity | simpl; lia | simpl; lia].
Qed.

End codec_facts.

(** ** Sealing and opening through the holders *)

Section round_trip_facts.
Context `{Runtime}.

Lemma EncryptColumn_Value_inv (e : EncryptColumn.t) (r r' : Reader)
    (env : bytes) :
  EncryptColumn.Value e r = (Ok env, r') ->
  EncryptColumn.Valid e = true /\
  exists b, EncryptColumn.encode (EncryptColumn.Val e) = Ok b /\
            EncryptColumn.aesEncrypt e b r = (Ok env, r').
Proof.
  unfold EncryptColumn.Value.
  destruct (EncryptColumn.Valid e); cbn [negb]; [|discriminate].
  destruct (negb _); [discriminate|].
  destruct (EncryptColumn.encode _) as [b|err|]; try discriminate.
  intros HE. split; [reflexivity|]. exists b. split; [reflexivity | exact HE].
Qed.

Lemma EncryptColumn_Value_ok (e : EncryptColumn.t) (r : Reader) (b : bytes) :
  EncryptColumn.Valid e = true ->
  valid_key_length (length (EncryptColumn.Key e)) ->
  EncryptColumn.encode (EncryptColumn.Val e) = Ok b ->
  EncryptColumn.Value e r = EncryptColumn.aesEncrypt e b r.
Proof.
  intros Hv Hk Hb. unfold EncryptColumn.Value. rewrite Hv, Hb. cbn [negb].
  apply key_length_ok_spec in Hk. unfold key_length_ok in Hk. now rewrite Hk.
Qed.

(** [Scan] of an envelope that opens to [p]. *)
Lemma EncryptColumn_Scan_opened (e : EncryptColumn.t) (env p : bytes) :
  EncryptColumn.aesDecrypt e env = Ok p ->
  EncryptColumn.Scan e (SrcBytes env)
  = match EncryptColumn.setValAfterDecrypt e p with
    | (e', None) => (EncryptColumn.with_Valid e' true, Ok tt)
    | (e', Some err) => (EncryptColumn.with_Valid e' false, Err err)
    end.
Proof.
  intros Hd. unfold EncryptColumn.Scan. rewrite Hd.
  destruct (EncryptColumn.setValAfterDecrypt e p) as [e' [err|]]; reflexivity.
Qed.

(** A value written by [Value] is read back by [Scan] under the same key. *)
Lemma EncryptColumn_Scan_Value (e e' : EncryptColumn.t) (r r' : Reader)
    (env : bytes) :
  EncryptColumn.Key e' = EncryptColumn.Key e ->
  typeOf (EncryptColumn.Val e') = typeOf (EncryptColumn.Val e) ->
  primitive (typeOf (EncryptColumn.Val e)) = true ->
  in_range (EncryptColumn.Val e) ->
  EncryptColumn.Value e r = (Ok env, r') ->
  EncryptColumn.Scan e' (SrcBytes env)
  = ({| EncryptColumn.Val := EncryptColumn.Val e; EncryptColumn.Valid := true;
        EncryptColumn.Key := EncryptColumn.Key e' |}, Ok tt).
Proof.
  intros HK Ht Hp Hr HV.
  apply EncryptColumn_Value_inv in HV. destruct HV as (_ & b & Hb & HE).
  destruct (EncryptColumn_decode_encode e' _ Hp Ht Hr) as (b' & Hb' & Hd).
  assert (b' = b) by congruence. subst b'.
  rewrite (EncryptColumn_Scan_opened e' env b).
  - rewrite Hd. reflexivity.
  - exact (aesDecrypt_aesEncrypt e e' b r r' env HK HE).
Qed.

Lemma SecureField_Value_inv (sf : SecureField.t) (r r' : Reader) (env : bytes) :
  SecureField.Value sf r = (Ok env, r') ->
  SecureField.initError sf = None /\ SecureField.isValid sf = true /\
  (12 <= length r)%nat /\ r' = drop 12 r /\
  exists g data c tag,
    SecureField.aead sf = Some g /\
    SecureField.encode (SecureField.value sf) = Ok data /\
    env = take 12 r ++ c ++ tag /\
    length c = length data /\ length tag = 16%nat /\
    cipher.Open g [] (take 12 r) (c ++ tag) [] = Ok data.
Proof.
  unfold SecureField.Value.
  destruct (SecureField.initError sf); [discriminate|].
  destruct (SecureField.isValid sf); cbn [negb]; [|discriminate].
  destruct (SecureField.encode _) as [data|err|]; try discriminate.
  destruct (SecureField.aead sf) as [g|]; [|discriminate].
  unfold cipher.NonceSize, cipher.gcmStandardNonceSize.
  destruct (ReadFull r 12) as [[nonce|err|] r1] eqn:Hr; try discriminate.
  apply ReadFull_inv in Hr. destruct Hr as (Hle & -> & -> & Hn).
  destruct (Seal_layout g (take 12 r) (take 12 r) data [] Hn)
    as (c & tag & HS & Hc & Ht & HO).
  rewrite HS. intros [= <- <-]. repeat split; try assumption.
  exists g, data, c, tag. repeat split; assumption.
Qed.

Lemma SecureField_Value_ok (sf : SecureField.t) (r : Reader) g (data : bytes) :
  SecureField.initError sf = None ->
  SecureField.isValid sf = true ->
  SecureField.aead sf = Some g ->
  SecureField.encode (SecureField.value sf) = Ok data ->
  (12 <= length r)%nat ->
  exists env, SecureField.Value sf r = (Ok env, drop 12 r).
Proof.
  intros Hi Hv Ha Hd Hr. unfold SecureField.Value.
  rewrite Hi, Hv, Hd, Ha. cbn [negb].
  unfold cipher.NonceSize, cipher.gcmStandardNonceSize, ReadFull.
  destruct (Nat.leb_spec 12 (length r)) as [_|?]; [|lia].
  assert (Hn : length (take 12 r) = 12%nat) by (rewrite length_take; lia).
  destruct (Seal_layout g (take 12 r) (take 12 r) data [] Hn)
    as (c & tag & HS & _).
  rewrite HS. eauto.
Qed.

(** [Scan] of an envelope that opens to [p]. *)
Lemma SecureField_Scan_opened (sf : SecureField.t) g (env p : bytes) :
  SecureField.initError sf = None ->
  SecureField.aead sf = Some g ->
  (12 <= length env)%nat ->
  cipher.Open g [] (take 12 env) (drop 12 env) [] = Ok p ->
  SecureField.Scan sf (SrcBytes env)
  = match SecureField.decode sf p with
    | (sf', Some err) => (sf', Err err)
    | (sf', None) => (SecureField.with_isValid sf' true, Ok tt)
    end.
Proof.
  intros Hi Ha Hlen HO. unfold SecureField.Scan. rewrite Hi, Ha.
  unfold cipher.NonceSize, cipher.gcmStandardNonceSize.
  destruct (Nat.ltb_spec (length env) 12) as [?|_]; [lia|].
  rewrite HO. reflexivity.
Qed.

(** [Scan] of an envelope that fails authentication clears the flag. *)
Lemma SecureField_Scan_not_opened (sf : SecureField.t) g (env : bytes) err :
  SecureField.initError sf = None ->
  SecureField.aead sf = Some g ->
  (12 <= length env)%nat ->
  cipher.Open g [] (take 12 env) (drop 12 env) [] = Err err ->
  SecureField.Scan sf (SrcBytes env)
  = (SecureField.with_isValid sf false, Err (errDecrypt err)).
Proof.
  intros Hi Ha Hlen HO. unfold SecureField.Scan. rewrite Hi, Ha.
  unfold cipher.NonceSize, cipher.gcmStandardNonceSize.
  destruct (Nat.ltb_spec (length env) 12) as [?|_]; [lia|].
  rewrite HO. reflexivity.
Qed.

(** A value written by [Value] is read back by [Scan] of a holder with the
    same cipher context. *)
Lemma SecureField_Scan_Value (sf sf' : SecureField.t) (r r' : Reader)
    (env : bytes) :
  SecureField.initError sf' = None ->
  SecureField.aead sf' = SecureField.aead sf ->
  typeOf (SecureField.value sf') = typeOf (SecureField.value sf) ->
  primitive_sf (typeOf (SecureField.value sf)) = true ->
  in_range (SecureField.value sf) ->
  SecureField.Value sf r = (Ok env, r') ->
  SecureField.Scan sf' (SrcBytes env)
  = (SecureField.with_isValid
       (SecureField.with_value sf' (SecureField.value sf)) true, Ok tt).
Proof.
  intros Hi Ha Ht Hp Hr HV. apply SecureField_Value_inv in HV.
  destruct HV as (_ & _ & Hle & _ & g & data & c & tag & Hg & Hd & -> & Hc
                  & Htag & HO).
  destruct (SecureField_decode_encode sf' _ Hp Ht Hr) as (b' & Hb' & Hdec).
  assert (b' = data) by congruence. subst b'.
  assert (Hn : length (take 12 r) = 12%nat) by (rewrite length_take; lia).
  rewrite (SecureField_Scan_opened sf' g _ data); try congruence.
  - now rewrite Hdec.
  - rewrite length_app. lia.
  - rewrite take_app_length', drop_app_length' by congruence. exact HO.
Qed.

End round_trip_facts.

(** C2.  Round trip.  For every type of a holder's switch and every value
    [v] of that type, decoding the bytes that encoding [v] produced yields
    [v]; and for every byte sequence [x], a key of valid length and an
    entropy source that delivers a nonce, sealing [x] produces an envelope
    that the same key opens to [x].  ([SecureField] seals and opens inside
    [Value] and [Scan], so its envelope is taken on a [[]byte] field, whose
    encoding is the identity.) *)
Theorem C2_round_trip `{Runtime} :
  (forall (e : EncryptColumn.t) (v : GoVal),
      primitive (typeOf v) = true ->
      typeOf (EncryptColumn.Val e) = typeOf v ->
      in_range v ->
      exists b,
        EncryptColumn.encode v = Ok b /\
        EncryptColumn.setValAfterDecrypt e b
        = (EncryptColumn.with_Val e v, None)) /\
  (forall (sf : SecureField.t) (v : GoVal),
      primitive_sf (typeOf v) = true ->
      typeOf (SecureField.value sf) = typeOf v ->
      in_range v ->
      exists b,
        SecureField.encode v = Ok b /\
        SecureField.decode sf b = (SecureField.with_value sf v, None)) /\
  (forall (e : EncryptColumn.t) (x : bytes) (r : Reader),
      valid_key_length (length (EncryptColumn.Key e)) ->
      (12 <= length r)%nat ->
      exists env,
        EncryptColumn.aesEncrypt e x r = (Ok env, drop 12 r) /\
        forall e' : EncryptColumn.t,
          EncryptColumn.Key e' = EncryptColumn.Key e ->
          EncryptColumn.aesDecrypt e' env = Ok x) /\
  (forall (secret x old : bytes) (r : Reader),
      valid_key_length (length secret) ->
      (12 <= length r)%nat ->
      exists env,
        SecureField.Value (SecureField.NewSecureField secret (VBytes x)) r
        = (Ok env, drop 12 r) /\
        SecureField.Scan (SecureField.NewSecureField secret (VBytes old))
                         (SrcBytes env)
        = (SecureField.NewSecureField secret (VBytes x), Ok tt)).
Proof.
  split; [exact EncryptColumn_decode_encode|].
  split; [exact SecureField_decode_encode|].
  split.
  - intros e x r Hk Hr.
    destruct (aesEncrypt_ok e x r Hk Hr) as [env HE].
    exists env. split; [exact HE|].
    intros e' HK. exact (aesDecrypt_aesEncrypt e e' x r _ env HK HE).
  - intros secret x old r Hk Hr.
    destruct (SecureField_Value_ok
                (SecureField.NewSecureField secret (VBytes x)) r
                (gcm_of secret) x) as [env HV];
      try (rewrite NewSecureField_ok by assumption; reflexivity);
      try assumption.
    exists env. split; [exact HV|].
    rewrite (SecureField_Scan_Value
               (SecureField.NewSecureField secret (VBytes x))
               (SecureField.NewSecureField secret (VBytes old))
               r (drop 12 r) env);
      try (rewrite ?NewSecureField_ok by assumption; reflexivity);
      try exact HV.
Qed.

(** C2 at [int32(-5)] and [int16(-2)], and at the three bytes [01 02 03]
    under an all-zero 16-byte key. *)
Lemma C2_witness :
  (exists b,
      @EncryptColumn.encode amd64 (VNum Int32 (-5)) = Ok b /\
      @EncryptColumn.setValAfterDecrypt amd64
        {| EncryptColumn.Val := VNum Int32 0; EncryptColumn.Valid := false;
           EncryptColumn.Key := repeat 0 16 |} b
      = ({| EncryptColumn.Val := VNum Int32 (-5); EncryptColumn.Valid := false;
            EncryptColumn.Key := repeat 0 16 |}, None)) /\
  (exists b,
      @SecureField.encode amd64 (VNum Int16 (-2)) = Ok b /\
      @SecureField.decode amd64
        (SecureField.NewSecureField (repeat 0 16) (VNum Int16 0)) b
      = (SecureField.NewSecureField (repeat 0 16) (VNum Int16 (-2)), None)) /\
  (exists env,
      EncryptColumn.aesEncrypt
        {| EncryptColumn.Val := VBytes [1; 2; 3]; EncryptColumn.Valid := true;
           EncryptColumn.Key := repeat 0 16 |} [1; 2; 3] (repeat 7 12)
      = (Ok env, []) /\
      EncryptColumn.aesDecrypt
        {| EncryptColumn.Val := VBytes []; EncryptColumn.Valid := false;
           EncryptColumn.Key := repeat 0 16 |} env
      = Ok [1; 2; 3]) /\
  (exists env,
      @SecureField.Value amd64
        (SecureField.NewSecureField (repeat 0 16) (VBytes [1; 2; 3]))
        (repeat 7 12)
      = (Ok env, []) /\
      @SecureField.Scan amd64
        (SecureField.NewSecureField (repeat 0 16) (VBytes [])) (SrcBytes env)
      = (SecureField.NewSecureField (repeat 0 16) (VBytes [1; 2; 3]), Ok tt)).
Proof.
  destruct (@C2_round_trip amd64) as (HE & HS & HEenv & HSenv).
  split; [|split; [|split]].
  - apply (HE {| EncryptColumn.Val := VNum Int32 0;
                 EncryptColumn.Valid := false;
                 EncryptColumn.Key := repeat 0 16 |} (VNum Int32 (-5)));
      [reflexivity | reflexivity | simpl; lia].
  - apply (HS (SecureField.NewSecureField (repeat 0 16) (VNum Int16 0))
              (VNum Int16 (-2)));
      [reflexivity | reflexivity | simpl; lia].
  - destruct (HEenv {| EncryptColumn.Val := VBytes [1; 2; 3];
                       EncryptColumn.Valid := true;
                       EncryptColumn.Key := repeat 0 16 |} [1; 2; 3]
                    (repeat 7 12)) as (env & Hseal & Hopen);
      [left; reflexivity | simpl; lia |].
    exists env. split; [exact Hseal | apply Hopen; reflexivity].
  - apply (HSenv (repeat 0 16) [1; 2; 3] [] (repeat 7 12));
      [left; reflexivity | simpl; lia].
Defined.

(** C6.  The concrete scenario: a column holding [int64(42)] under the key
    of 32 zero bytes.  The encoding is [00 00 00 00 00 00 00 2A]; whatever
    twelve bytes the entropy source delivers, [Value] returns the 36-byte
    envelope nonce (12) || ciphertext (8) || tag (16); [aesDecrypt] opens the
    envelope to the encoding; decoding recovers 42, and so does [Scan] as a
    whole, which leaves the column valid. *)
Theorem C6_int64_42_under_the_zero_key `{Runtime}
    (r : Reader) (old : Z) (flag : bool) :
  (12 <= length r)%nat ->
  let e := {| EncryptColumn.Val := VNum Int64 42; EncryptColumn.Valid := true;
              EncryptColumn.Key := repeat 0 32 |} in
  let target := {| EncryptColumn.Val := VNum Int64 old;
                   EncryptColumn.Valid := flag;
                   EncryptColumn.Key := repeat 0 32 |} in
  EncryptColumn.encode (EncryptColumn.Val e) = Ok (hex "000000000000002a") /\
  exists nonce ct tag,
    EncryptColumn.Value e r = (Ok (nonce ++ ct ++ tag), drop 12 r) /\
    nonce = take 12 r /\
    length nonce = 12%nat /\ length ct = 8%nat /\ length tag = 16%nat /\
    length (nonce ++ ct ++ tag) = 36%nat /\
    EncryptColumn.aesDecrypt target (nonce ++ ct ++ tag)
    = Ok (hex "000000000000002a") /\
    EncryptColumn.setValAfterDecrypt target (hex "000000000000002a")
    = (EncryptColumn.with_Val target (VNum Int64 42), None) /\
    EncryptColumn.Scan target (SrcBytes (nonce ++ ct ++ tag)) = (e, Ok tt).
Proof.
  intros Hr e target.
  assert (Hk : valid_key_length (length (EncryptColumn.Key e)))
    by (right; right; reflexivity).
  assert (Henc : EncryptColumn.encode (EncryptColumn.Val e)
                 = Ok (hex "000000000000002a")) by reflexivity.
  split; [exact Henc|].
  destruct (aesEncrypt_ok e (hex "000000000000002a") r Hk Hr) as [env HE].
  assert (HV : EncryptColumn.Value e r = (Ok env, drop 12 r)).
  { rewrite (EncryptColumn_Value_ok e r _ eq_refl Hk Henc). exact HE. }
  pose proof (aesEncrypt_inv e _ r _ env HE)
    as (_ & _ & _ & c & tag & -> & Hc & Ht & _).
  assert (Hn : length (take 12 r) = 12%nat) by (rewrite length_take; lia).
  exists (take 12 r), c, tag.
  split; [exact HV|]. split; [reflexivity|]. split; [exact Hn|].
  split; [exact Hc|]. split; [exact Ht|]. split; [|split; [|split]].
  - rewrite !length_app, Hn, Hc, Ht. reflexivity.
  - exact (aesDecrypt_aesEncrypt e target _ r _ _ eq_refl HE).
  - vm_compute. reflexivity.
  - exact (EncryptColumn_Scan_Value e target r _ _ eq_refl eq_refl eq_refl
             ltac:(simpl; lia) HV).
Qed.

(** C6 when the entropy source delivers twelve zero bytes: the envelope is
    the one below (its ciphertext is the AES-256 key stream of GCM test case
    14 with [2A] folded into the eighth byte). *)
Lemma C6_witness :
  let e := {| EncryptColumn.Val := VNum Int64 42; EncryptColumn.Valid := true;
              EncryptColumn.Key := repeat 0 32 |} in
  let target := {| EncryptColumn.Val := VNum Int64 0;
                   EncryptColumn.Valid := false;
                   EncryptColumn.Key := repeat 0 32 |} in
  let env := hex "000000000000000000000000cea7403d4d606b44bc6ad0b7aa94ada17fad0a0a9084ea5b" in
  @EncryptColumn.encode amd64 (VNum Int64 42) = Ok (hex "000000000000002a") /\
  @EncryptColumn.Value amd64 e (repeat 0 12) = (Ok env, []) /\
  length env = 36%nat /\
  EncryptColumn.aesDecrypt target env = Ok (hex "000000000000002a") /\
  @EncryptColumn.Scan amd64 target (SrcBytes env) = (e, Ok tt).
Proof.
  intros e target env.
  destruct (@C6_int64_42_under_the_zero_key amd64 (repeat 0 12) 0 false)
    as (Henc & nonce & ct & tag & HV & _ & _ & _ & _ & Hlen & Hd & _ & HS);
    [simpl; lia|].
  assert (HV' : @EncryptColumn.Value amd64 e (repeat 0 12) = (Ok env, []))
    by (vm_compute; reflexivity).
  assert (Henv : nonce ++ ct ++ tag = env).
  { apply (f_equal fst) in HV, HV'. simpl in HV, HV'.
    rewrite HV' in HV. injection HV as HV. symmetry. exact HV. }
  rewrite Henv in Hlen, Hd, HS.
  split; [exact Henc|]. split; [exact HV'|]. split; [exact Hlen|].
  split; [exact Hd | exact HS].
Defined.

(** ** Width mismatch *)

(** What holds of the width check: a sequence shorter than the width is
    rejected by both holders, a longer one by [SecureField] for the two
    numeric types of its switch. *)
Lemma width_mismatch_rejected `{Runtime} :
  (forall (e : EncryptColumn.t) (k : NumKind) (old : Z) (b : bytes),
      EncryptColumn.Val e = VNum k old ->
      (length b < size k)%nat ->
      exists err,
        EncryptColumn.setValAfterDecrypt e b = (e, Some err) /\
        classify err = DecodeError) /\
  (forall (sf : SecureField.t) (k : NumKind) (old : Z) (b : bytes),
      SecureField.value sf = VNum k old ->
      k = Int8 \/ k = Int16 ->
      length b <> size k ->
      exists err,
        SecureField.decode sf b = (sf, Some err) /\
        classify err = DecodeError).
Proof.
  split.
  - intros e k old b HVal Hlen. unfold EncryptColumn.setValAfterDecrypt.
    rewrite HVal.
    destruct (binary_Read_short k b old Hlen) as (err & -> & Hc).
    exists err. split; [|exact Hc]. f_equal. now apply with_Val_same.
  - intros sf k old b HVal Hk Hlen. unfold SecureField.decode. rewrite HVal.
    destruct Hk as [-> | ->]; simpl in Hlen.
    + destruct (Nat.eqb_spec (length b) 1) as [?|_]; [contradiction|].
      eexists; split; reflexivity.
    + destruct (Nat.eqb_spec (length b) 2) as [?|_]; [contradiction|].
      eexists; split; reflexivity.
Qed.

(** The width-mismatch case of the specification: three bytes do not decode
    into an [int32] column. *)
Example three_bytes_into_int32 :
  let e := {| EncryptColumn.Val := VNum Int32 9; EncryptColumn.Valid := true;
              EncryptColumn.Key := repeat 0 16 |} in
  @EncryptColumn.setValAfterDecrypt amd64 e [1; 2; 3]
  = (e, Some io_ErrUnexpectedEOF) /\
  classify io_ErrUnexpectedEOF = DecodeError.
Proof. split; reflexivity. Qed.

(** C5.  [EncryptColumn] decodes a numeric column with [binary.Read], which
    reads the type's width from the front of the decrypted bytes and never
    looks at what follows: on every sequence longer than the width, where
    the claim asks for a decode error, [setValAfterDecrypt] returns no error
    and stores the value that the leading bytes spell. *)
Theorem C5_EncryptColumn_decodes_longer_payload `{Runtime}
    (e : EncryptColumn.t) (k : NumKind) (old : Z) (b : bytes) :
  EncryptColumn.Val e = VNum k old ->
  (size k < length b)%nat ->
  EncryptColumn.setValAfterDecrypt e b
  = (EncryptColumn.with_Val e (VNum k (binary.decode k (take (size k) b))),
     None).
Proof.
  intros HVal Hlen. unfold EncryptColumn.setValAfterDecrypt.
  rewrite HVal. rewrite binary_Read_long by lia. reflexivity.
Qed.

(** C5 at the five bytes 00 00 00 01 09 for an [int32] column: they decode,
    without error, to 1. *)
Lemma C5_witness :
  let e := {| EncryptColumn.Val := VNum Int32 0; EncryptColumn.Valid := true;
              EncryptColumn.Key := repeat 0 16 |} in
  @EncryptColumn.setValAfterDecrypt amd64 e (hex "0000000109")
  = (EncryptColumn.with_Val e (VNum Int32 1), None).
Proof.
  intros e.
  apply (@C5_EncryptColumn_decodes_longer_payload amd64 e Int32 0
           (hex "0000000109")).
  - reflexivity.
  - simpl. lia.
Defined.

(** ** The validity flag after a failed [Scan] *)

Section flag_facts.
Context `{Runtime}.

(** [EncryptColumn]: a failure of the decode step clears the flag ... *)
Lemma EncryptColumn_Scan_decode_failure (e e' : EncryptColumn.t)
    (env p : bytes) (err : error) :
  EncryptColumn.aesDecrypt e env = Ok p ->
  EncryptColumn.Scan e (SrcBytes env) = (e', Err err) ->
  EncryptColumn.Valid e' = false.
Proof.
  intros Hd. rewrite (EncryptColumn_Scan_opened e env p Hd).
  destruct (EncryptColumn.setValAfterDecrypt e p) as [e1 [err1|]];
    intros [= <- _] || discriminate.
  reflexivity.
Qed.

(** ... but a failure of the decrypt step returns before the flag is
    written: the holder, flag included, is what it was. *)
Lemma EncryptColumn_Scan_decrypt_failure (e : EncryptColumn.t) (src : Src)
    (b : bytes) (err : error) :
  raw_source src = Some b ->
  EncryptColumn.aesDecrypt e b = Err err ->
  EncryptColumn.Scan e src = (e, Err err).
Proof.
  intros Hs Hd. rewrite (EncryptColumn_Scan_raw e src b Hs).
  unfold EncryptColumn.Scan. now rewrite Hd.
Qed.

(** [SecureField]: a failure of the msgpack branch of the decode step clears
    the flag, as a failure of the decrypt step does
    ([SecureField_Scan_not_opened]); the two length checks of the [int8] and
    [int16] branches return without writing it. *)
Lemma SecureField_decode_failure_flag (sf sf' : SecureField.t) (p : bytes)
    (err : error) :
  SecureField.decode sf p = (sf', Some err) ->
  (SecureField.isValid sf' = false /\ exists cause, err = errDeserialize cause)
  \/ (sf' = sf /\ (err = errInt8Length \/ err = errInt16Length)).
Proof.
  unfold SecureField.decode.
  assert (Hm : forall v,
             match msgpack_Unmarshal p v with
             | (w, Some e0) =>
                 (SecureField.with_isValid (SecureField.with_value sf w) false,
                  Some (errDeserialize e0))
             | (w, None) => (SecureField.with_value sf w, None)
             end = (sf', Some err) ->
             (SecureField.isValid sf' = false /\
              exists cause, err = errDeserialize cause)
             \/ (sf' = sf /\ (err = errInt8Length \/ err = errInt16Length))).
  { intros v. destruct (msgpack_Unmarshal p v) as [w [e0|]];
      intros [= <- <-] || discriminate.
    left. split; [reflexivity | eauto]. }
  destruct (SecureField.value sf) as [?|?|k ?|?|?|?]; try discriminate;
    try apply Hm.
  destruct k; try apply Hm.
  - destruct (negb _); intros [= <- <-] || discriminate. right. auto.
  - destruct (negb _); intros [= <- <-] || discriminate. right. auto.
Qed.

End flag_facts.

(** The envelope used below is what [Value] of an [int16] field holding 7
    returns under the key of 16 zero bytes and a nonce of 12 zero bytes. *)
Example int16_envelope :
  @SecureField.Value amd64
    (SecureField.NewSecureField (repeat 0 16) (VNum Int16 7)) (repeat 0 12)
  = (Ok (hex "000000000000000000000000038f38c9251f171adff4e5dec111ea6094da"),
     []).
Proof. vm_compute. reflexivity. Qed.

(** C1.  Two [Scan] calls that fail and leave the validity flag true.
    An [EncryptColumn] that holds a valid value is handed 28 zero bytes: the
    tag does not verify, the decrypt step fails, and [Scan] returns the error
    before the line that writes the flag.  A [SecureField[int8]] is handed an
    authentic envelope whose plaintext is two bytes long: the decode step
    fails on the length check, which returns without clearing the flag that
    the other two failure branches of the same function clear. *)
Theorem C1_failed_Scan_leaves_flag_true `{Runtime} :
  (let e := {| EncryptColumn.Val := VString (hex "6f6c64");
               EncryptColumn.Valid := true;
               EncryptColumn.Key := repeat 0 16 |} in
   EncryptColumn.aesDecrypt e (repeat 0 28) = Err cipher_errOpen /\
   EncryptColumn.Scan e (SrcBytes (repeat 0 28)) = (e, Err cipher_errOpen) /\
   EncryptColumn.Valid (fst (EncryptColumn.Scan e (SrcBytes (repeat 0 28))))
   = true /\
   classify cipher_errOpen = DecryptionFailed) /\
  (let sf := SecureField.NewSecureField (repeat 0 16) (VNum Int8 7) in
   let env :=
     hex "000000000000000000000000038f38c9251f171adff4e5dec111ea6094da" in
   cipher.Open (gcm_of (repeat 0 16)) [] (take 12 env) (drop 12 env) []
   = Ok (hex "0007") /\
   SecureField.Scan sf (SrcBytes env) = (sf, Err errInt8Length) /\
   SecureField.isValid (fst (SecureField.Scan sf (SrcBytes env))) = true /\
   classify errInt8Length = DecodeError).
Proof.
  split.
  - intros e.
    split; [vm_compute; reflexivity|]. split; [vm_compute; reflexivity|].
    split; [vm_compute; reflexivity | reflexivity].
  - intros sf env.
    split; [vm_compute; reflexivity|]. split; [vm_compute; reflexivity|].
    split; [vm_compute; reflexivity | reflexivity].
Qed.

(** * Further properties of the code *)

(** ** [slice.Delete], and [slice.Add] on a shared backing array *)

Section slice_more.
Context {T : Type} (zero : T).
Import slice.

Lemma shift_left_length (fuel len i : nat) (src : list T) :
  length (shift_left fuel len i src) = length src.
Proof.
  revert i src. induction fuel as [|fuel IH]; intros i src; simpl;
    [reflexivity|].
  destruct (i + 1 <? len)%nat; [|reflexivity].
  rewrite IH. unfold assign_next.
  destruct (src !! (i + 1)%nat); [apply length_insert | reflexivity].
Qed.

(** With enough fuel the loop moves every element after [i] one place to
    the left and leaves the rest, the last element included, where it is. *)
Lemma shift_left_lookup (fuel i : nat) (src : list T) (k : nat) :
  (length src <= fuel + i)%nat ->
  shift_left fuel (length src) i src !! k =
    if decide (i <= k < length src - 1)%nat then src !! (k + 1)%nat
    else src !! k.
Proof.
  revert i src. induction fuel as [|fuel IH]; intros i src Hfuel; simpl.
  - rewrite decide_False by lia. reflexivity.
  - destruct (Nat.ltb_spec (i + 1) (length src)) as [Hlt|Hge].
    + assert (Hn : is_Some (src !! (i + 1)%nat))
        by (apply lookup_lt_is_Some; lia).
      destruct Hn as [x Hx]. unfold assign_next. rewrite Hx.
      replace (length src) with (length (<[i:=x]> src))
        by apply length_insert.
      rewrite IH by (rewrite length_insert; lia).
      rewrite length_insert.
      destruct (decide (k = i)) as [->|Hne].
      * rewrite decide_False by lia. rewrite decide_True by lia.
        rewrite list_lookup_insert_eq by lia. symmetry. exact Hx.
      * repeat case_decide; try lia;
          rewrite list_lookup_insert_ne by lia; reflexivity.
    + rewrite decide_False by lia. reflexivity.
Qed.

Lemma Delete_array_in_range (src : list T) (index : Z) :
  0 <= index < Z.of_nat (length src) ->
  Delete_array src index
  = take (Z.to_nat index) src ++ drop (S (Z.to_nat index)) src
    ++ drop (length src - 1) src.
Proof.
  intros Hidx. unfold Delete_array.
  destruct (Z.ltb_spec index 0) as [?|_]; [lia|].
  destruct (Z.leb_spec (Z.of_nat (length src)) index) as [?|_]; [lia|].
  cbn [orb]. set (n := Z.to_nat index).
  assert (Hn : (n < length src)%nat) by lia. clearbody n. clear Hidx.
  apply list_eq; intros k. rewrite shift_left_lookup by lia.
  destruct (Nat.lt_total k n) as [Hlt|[->|Hgt]].
  - rewrite decide_False by lia.
    rewrite lookup_app_l by (rewrite length_take; lia).
    rewrite lookup_take_lt by lia. reflexivity.
  - rewrite lookup_app_r by (rewrite length_take; lia).
    rewrite length_take. replace (n - n `min` length src)%nat with 0%nat by lia.
    case_decide.
    + rewrite lookup_app_l by (rewrite length_drop; lia).
      rewrite lookup_drop. f_equal. lia.
    + rewrite lookup_app_r by (rewrite length_drop; lia).
      rewrite length_drop, lookup_drop. f_equal. lia.
  - rewrite lookup_app_r by (rewrite length_take; lia).
    rewrite length_take.
    case_decide.
    + rewrite lookup_app_l by (rewrite length_drop; lia).
      rewrite lookup_drop. f_equal. lia.
    + destruct (decide (k = length src - 1)%nat) as [->|Hne].
      * rewrite lookup_app_r by (rewrite length_drop; lia).
        rewrite length_drop, lookup_drop. f_equal. lia.
      * rewrite !lookup_ge_None_2; [reflexivity| |lia].
        rewrite !length_app, !length_drop. lia.
Qed.

(** Within bounds, [Delete] returns [src[:index] ++ src[index+1:]] and the
    element that was at [index]. *)
Lemma Delete_in_range (src : list T) (index : Z) :
  0 <= index < Z.of_nat (length src) ->
  Delete zero src index
  = (take (Z.to_nat index) src ++ drop (S (Z.to_nat index)) src,
     nth (Z.to_nat index) src zero, None).
Proof.
  intros Hidx. pose proof (Delete_array_in_range src index Hidx) as Harr.
  unfold Delete_array in Harr. unfold Delete.
  destruct (Z.ltb_spec index 0) as [?|_]; [lia|].
  destruct (Z.leb_spec (Z.of_nat (length src)) index) as [?|_]; [lia|].
  cbn [orb] in *. rewrite shift_left_length, Harr.
  do 2 f_equal. rewrite app_assoc.
  apply take_app_length'. rewrite length_app, length_take, length_drop. lia.
Qed.

Lemma Delete_out_of_range (src : list T) (index : Z) :
  index < 0 \/ Z.of_nat (length src) <= index ->
  Delete zero src index
  = ([], zero, Some (ErrIndexOutOfRange (Z.of_nat (length src)) index)).
Proof.
  intros Hidx. unfold Delete.
  destruct (Z.ltb_spec index 0); [reflexivity|].
  destruct (Z.leb_spec (Z.of_nat (length src)) index); [reflexivity | lia].
Qed.

End slice_more.

(** X1.  Within bounds, [Delete] returns a slice one shorter than [src]
    that keeps the elements before [index], continues with those after it,
    and hands back the element that was at [index]; out of bounds, that is
    for a negative [index] or one at or beyond [len(src)] (so on every empty
    slice), it returns the nil slice, the zero value and the index error. *)
Theorem X1_Delete_removes_index
    {T : Type} (zero : T) (src : list T) (index : Z) :
  (0 <= index < Z.of_nat (length src) ->
   exists (res : list T) (x : T),
     slice.Delete zero src index = (res, x, None) /\
     src !! Z.to_nat index = Some x /\
     S (length res) = length src /\
     take (Z.to_nat index) res = take (Z.to_nat index) src /\
     drop (Z.to_nat index) res = drop (S (Z.to_nat index)) src) /\
  (index < 0 \/ Z.of_nat (length src) <= index ->
   slice.Delete zero src index
   = ([], zero, Some (slice.ErrIndexOutOfRange (Z.of_nat (length src)) index))).
Proof.
  split; [|apply Delete_out_of_range].
  intros Hidx. do 2 eexists. split; [apply Delete_in_range; exact Hidx|].
  set (n := Z.to_nat index). assert (Hn : (n < length src)%nat) by lia.
  assert (Hlen : length (take n src) = n) by (rewrite length_take; lia).
  split; [|split; [|split]].
  - destruct (nth_lookup_or_length src n zero) as [Hx|?]; [exact Hx | lia].
  - rewrite length_app, Hlen, length_drop. lia.
  - rewrite take_app_length'; [reflexivity | now rewrite Hlen].
  - rewrite drop_app_length'; [reflexivity | now rewrite Hlen].
Qed.

Lemma X1_witness :
  (exists (res : list Z) (x : Z),
     slice.Delete 0 [1; 2; 3; 4] 2 = (res, x, None) /\
     [1; 2; 3; 4] !! 2%nat = Some x /\
     S (length res) = 4%nat /\
     take 2 res = [1; 2] /\
     drop 2 res = [4]) /\
  slice.Delete 0 ([] : list Z) 0 = ([], 0, Some (slice.ErrIndexOutOfRange 0 0)).
Proof.
  split.
  - apply (proj1 (X1_Delete_removes_index 0 [1; 2; 3; 4] 2)). simpl. lia.
  - apply (proj2 (X1_Delete_removes_index 0 [] 0)). simpl. lia.
Defined.

(** X2.  Deleting at the index at which an element was just inserted gives
    back the original slice and the element. *)
Theorem X2_Delete_after_Add
    {T : Type} (zero : T) (src : list T) (e : T) (index : Z) :
  0 <= index <= Z.of_nat (length src) ->
  slice.Delete zero (fst (slice.Add zero src e index)) index = (src, e, None).
Proof.
  intros Hidx. rewrite Add_in_range by exact Hidx. cbn [fst].
  set (n := Z.to_nat index). assert (Hn : (n <= length src)%nat) by lia.
  assert (Hlen : length (take n src) = n) by (rewrite length_take; lia).
  rewrite Delete_in_range.
  - fold n. do 2 f_equal.
    + rewrite take_app_length' by (now rewrite Hlen).
      rewrite (cons_middle e), app_assoc.
      rewrite drop_app_length'; [apply take_drop|].
      rewrite length_app, Hlen. simpl. lia.
    + apply nth_lookup_Some with (d := zero) (x := e).
      rewrite lookup_app_r by lia. now rewrite Hlen, Nat.sub_diag.
  - rewrite length_app, Hlen. simpl. rewrite length_drop. lia.
Qed.

Lemma X2_witness :
  slice.Delete 0 (fst (slice.Add 0 [123; 100] 233 1)) 1 = ([123; 100], 233, None).
Proof. apply (X2_Delete_after_Add 0 [123; 100] 233 1). simpl. lia. Defined.

(** X3.  Inserting the element that [Delete] removed, at the index it was
    removed from, restores the original slice. *)
Theorem X3_Add_after_Delete
    {T : Type} (zero : T) (src : list T) (index : Z) :
  0 <= index < Z.of_nat (length src) ->
  slice.Add zero (fst (fst (slice.Delete zero src index)))
                 (snd (fst (slice.Delete zero src index))) index
  = (src, None).
Proof.
  intros Hidx. rewrite Delete_in_range by exact Hidx. cbn [fst snd].
  set (n := Z.to_nat index). assert (Hn : (n < length src)%nat) by lia.
  assert (Hlen : length (take n src) = n) by (rewrite length_take; lia).
  rewrite Add_in_range.
  - fold n. f_equal.
    rewrite take_app_length' by (now rewrite Hlen).
    rewrite drop_app_length' by (now rewrite Hlen).
    destruct (nth_lookup_or_length src n zero) as [Hx|?]; [|lia].
    exact (take_drop_middle src n _ Hx).
  - rewrite length_app, Hlen, length_drop. lia.
Qed.

Lemma X3_witness :
  slice.Add 0 (fst (fst (slice.Delete 0 [1; 2; 3; 4] 1)))
              (snd (fst (slice.Delete 0 [1; 2; 3; 4] 1))) 1
  = ([1; 2; 3; 4], None).
Proof. apply (X3_Add_after_Delete 0 [1; 2; 3; 4] 1). simpl. lia. Defined.

(** X4.  [Delete] works in place.  After a call within bounds the caller's
    slice, which still has its old length, reads as the slice returned
    followed by its old last element (which therefore occurs twice unless it
    was the one deleted); after a call out of bounds it is untouched. *)
Theorem X4_Delete_overwrites_the_argument
    {T : Type} (zero : T) (src : list T) (index : Z) :
  (0 <= index < Z.of_nat (length src) ->
   slice.Delete_array src index
   = fst (fst (slice.Delete zero src index)) ++ drop (length src - 1) src) /\
  (index < 0 \/ Z.of_nat (length src) <= index ->
   slice.Delete_array src index = src).
Proof.
  split.
  - intros Hidx. rewrite Delete_array_in_range, Delete_in_range by exact Hidx.
    cbn [fst]. now rewrite app_assoc.
  - intros Hidx. unfold slice.Delete_array.
    destruct (Z.ltb_spec index 0); [reflexivity|].
    destruct (Z.leb_spec (Z.of_nat (length src)) index); [reflexivity | lia].
Qed.

Lemma X4_witness :
  slice.Delete_array [1; 2; 3; 4] 1 = [1; 3; 4; 4] /\
  slice.Delete_array [1; 2; 3; 4] 4 = [1; 2; 3; 4].
Proof.
  split.
  - apply (proj1 (X4_Delete_overwrites_the_argument 0 [1; 2; 3; 4] 1)).
    simpl. lia.
  - apply (proj2 (X4_Delete_overwrites_the_argument 0 [1; 2; 3; 4] 4)).
    simpl. lia.
Defined.

(** X5.  [Add] on a slice with spare capacity works in place.  The slice it
    returns is the one [Add] computes, the array beyond it is untouched, and
    the caller's own slice [arr[:n]] has been overwritten: it now reads as
    the first [n] elements of the result, so from [index] on it has changed
    (unless the element was appended at the very end). *)
Theorem X5_Add_writes_through_spare_capacity
    {T : Type} (zeroValue : T) (arr : list T) (n : nat) (e : T) (index : Z) :
  (n < length arr)%nat ->
  0 <= index <= Z.of_nat n ->
  let after := slice.Add_array zeroValue arr n e index in
  let res := fst (slice.Add zeroValue (take n arr) e index) in
  take (S n) after = res /\
  drop (S n) after = drop (S n) arr /\
  take n after = take n res.
Proof.
  intros Hcap Hidx after res.
  assert (Hsrc : length (take n arr) = n) by (rewrite length_take; lia).
  assert (Hres : res = take (Z.to_nat index) (take n arr)
                       ++ e :: drop (Z.to_nat index) (take n arr)).
  { unfold res. rewrite Add_in_range by (rewrite Hsrc; exact Hidx).
    reflexivity. }
  assert (Hafter : after = res ++ drop (S n) arr).
  { rewrite Hres. unfold after, slice.Add_array.
    destruct (Z.ltb_spec index 0) as [?|_]; [lia|].
    destruct (Z.ltb_spec (Z.of_nat n) index) as [?|_]; [lia|].
    cbn [orb]. set (i := Z.to_nat index).
    assert (Hi : (i <= n)%nat) by lia. clearbody i.
    assert (Hti : length (take i (take n arr)) = i)
      by (rewrite length_take; lia).
    apply list_eq; intros k.
    destruct (Nat.lt_total k i) as [Hlt|[->|Hgt]].
    - rewrite list_lookup_insert_ne by lia.
      rewrite shift_right_lookup by (rewrite length_insert; lia).
      rewrite decide_False by lia.
      rewrite list_lookup_insert_ne by lia.
      rewrite <- app_assoc, lookup_app_l by lia.
      rewrite !lookup_take_lt by lia. reflexivity.
    - rewrite list_lookup_insert_eq
        by (rewrite shift_right_length, length_insert; lia).
      rewrite <- app_assoc, lookup_app_r by lia.
      now rewrite Hti, Nat.sub_diag.
    - rewrite list_lookup_insert_ne by lia.
      rewrite shift_right_lookup by (rewrite length_insert; lia).
      rewrite <- app_assoc, lookup_app_r by lia. rewrite Hti.
      replace (k - i)%nat with (S (k - i - 1)) by lia.
      rewrite <- app_comm_cons, lookup_cons_ne_0 by lia. cbn [Nat.pred].
      assert (Hd : length (drop i (take n arr)) = (n - i)%nat)
        by (rewrite length_drop; lia).
      case_decide.
      + rewrite list_lookup_insert_ne by lia.
        rewrite lookup_app_l by lia.
        rewrite lookup_drop, lookup_take_lt by lia. f_equal. lia.
      + rewrite list_lookup_insert_ne by lia.
        rewrite lookup_app_r by lia.
        rewrite Hd, lookup_drop. f_equal. lia. }
  assert (Hlen : length res = S n).
  { rewrite Hres, length_app, length_take. cbn [length].
    rewrite length_drop, Hsrc. lia. }
  rewrite Hafter. split; [|split].
  - apply take_app_length'. now rewrite Hlen.
  - apply drop_app_length'. now rewrite Hlen.
  - rewrite take_app_le by lia. reflexivity.
Qed.

(** X5 on the four-element array [1 2 3 0] of which the caller holds the
    first three: inserting 9 at the front returns [9 1 2 3] and leaves the
    caller's slice reading [9 1 2]. *)
Lemma X5_witness :
  take 4 (slice.Add_array 0 [1; 2; 3; 0] 3 9 0) = [9; 1; 2; 3] /\
  drop 4 (slice.Add_array 0 [1; 2; 3; 0] 3 9 0) = [] /\
  take 3 (slice.Add_array 0 [1; 2; 3; 0] 3 9 0) = [9; 1; 2].
Proof.
  apply (X5_Add_writes_through_spare_capacity 0 [1; 2; 3; 0] 3 9 0);
    simpl; lia.
Defined.

(** ** More of the AEAD contract *)

Lemma bytes_eqb_eq (a b : bytes) : bytes_eqb a b = true -> a = b.
Proof.
  revert b. induction a as [|x a IH]; intros [|y b]; simpl;
    try discriminate; [reflexivity|].
  intros Hab. apply andb_true_iff in Hab. destruct Hab as [Hxy Hab].
  apply Z.eqb_eq in Hxy. f_equal; [exact Hxy | now apply IH].
Qed.

Lemma Seal_eq g dst nonce plaintext a :
  length nonce = 12%nat ->
  cipher.Seal g dst nonce plaintext a
  = Ok (dst ++ cipher.counterCrypt g nonce plaintext
            ++ cipher.auth g nonce (cipher.counterCrypt g nonce plaintext) a).
Proof.
  intros Hn. unfold cipher.Seal, cipher.NonceSize, cipher.gcmStandardNonceSize.
  rewrite Hn. reflexivity.
Qed.

(** What [Open] accepts: a ciphertext followed by its own tag. *)
Lemma Open_Ok_inv g nonce c a p :
  length nonce = 12%nat ->
  cipher.Open g [] nonce c a = Ok p ->
  exists body,
    c = body ++ cipher.auth g nonce body a /\
    p = cipher.counterCrypt g nonce body /\
    length body = length p.
Proof.
  intros Hn. unfold cipher.Open, cipher.NonceSize, cipher.gcmStandardNonceSize,
    cipher.gcmTagSize.
  rewrite Hn. cbn [Nat.eqb negb].
  destruct (Nat.ltb_spec (length c) 16) as [?|Hlen]; [discriminate|].
  destruct (bytes_eqb _ _) eqn:Ht; [|discriminate].
  apply bytes_eqb_eq in Ht. intros [= <-].
  exists (take (length c - 16) c). split; [|split].
  - rewrite Ht. symmetry. apply take_drop.
  - reflexivity.
  - now rewrite length_counterCrypt.
Qed.

(** [Open] accepts nothing but what [Seal] returns for the plaintext. *)
Lemma Seal_of_Open g nonce c a p :
  length nonce = 12%nat ->
  cipher.Open g [] nonce c a = Ok p ->
  cipher.Seal g [] nonce p a = Ok c.
Proof.
  intros Hn HO. destruct (Open_Ok_inv g nonce c a p Hn HO) as (body & -> & -> & _).
  rewrite Seal_eq by exact Hn. now rewrite counterCrypt_involutive.
Qed.

(** A ciphertext followed by sixteen bytes that are not its tag is
    rejected. *)
Lemma Open_wrong_tag g nonce body tag a :
  length nonce = 12%nat ->
  length tag = 16%nat ->
  tag <> cipher.auth g nonce body a ->
  cipher.Open g [] nonce (body ++ tag) a = Err cipher_errOpen.
Proof.
  intros Hn Ht Hne. unfold cipher.Open, cipher.NonceSize,
    cipher.gcmStandardNonceSize, cipher.gcmTagSize.
  rewrite Hn. cbn [Nat.eqb negb]. rewrite length_app, Ht.
  destruct (Nat.ltb_spec (length body + 16) 16) as [?|_]; [lia|].
  replace (length body + 16 - 16)%nat with (length body) by lia.
  rewrite take_app_length, drop_app_length.
  destruct (bytes_eqb _ _) eqn:Hb; [|reflexivity].
  apply bytes_eqb_eq in Hb. congruence.
Qed.

(** The envelope that [aesEncrypt] returns, spelled out. *)
Lemma aesEncrypt_eq (e : EncryptColumn.t) (x : bytes) (r : Reader) :
  valid_key_length (length (EncryptColumn.Key e)) ->
  (12 <= length r)%nat ->
  EncryptColumn.aesEncrypt e x r
  = (Ok (take 12 r
         ++ cipher.counterCrypt (gcm_of (EncryptColumn.Key e)) (take 12 r) x
         ++ cipher.auth (gcm_of (EncryptColumn.Key e)) (take 12 r)
              (cipher.counterCrypt (gcm_of (EncryptColumn.Key e)) (take 12 r) x)
              []),
     drop 12 r).
Proof.
  intros Hk Hr. unfold EncryptColumn.aesEncrypt.
  rewrite NewCipher_ok by assumption.
  unfold cipher.NewGCM, cipher.NonceSize, cipher.gcmStandardNonceSize, ReadFull.
  destruct (Nat.leb_spec 12 (length r)) as [_|?]; [|lia].
  fold (gcm_of (EncryptColumn.Key e)).
  rewrite Seal_eq by (rewrite length_take; lia). reflexivity.
Qed.

Lemma aesDecrypt_Ok_inv (e : EncryptColumn.t) (env p : bytes) :
  EncryptColumn.aesDecrypt e env = Ok p ->
  valid_key_length (length (EncryptColumn.Key e)) /\
  (12 <= length env)%nat /\
  cipher.Open (gcm_of (EncryptColumn.Key e)) [] (take 12 env) (drop 12 env) []
  = Ok p.
Proof.
  intros Hd.
  destruct (key_length_ok (length (EncryptColumn.Key e))) eqn:Hk.
  - apply key_length_ok_spec in Hk. split; [exact Hk|].
    destruct (Nat.lt_ge_cases (length env) 12) as [Hlt|Hge].
    + rewrite aesDecrypt_short in Hd by assumption. discriminate.
    + split; [exact Hge|]. rewrite <- Hd. symmetry.
      now apply aesDecrypt_long.
  - rewrite aesDecrypt_bad_key in Hd; [discriminate|].
    intros Hv. apply key_length_ok_spec in Hv. congruence.
Qed.

(** ** What [Scan] writes and what it leaves alone *)

Section frame_facts.
Context `{Runtime}.

Lemma setValAfterDecrypt_Key (e : EncryptColumn.t) (b : bytes) :
  EncryptColumn.Key (fst (EncryptColumn.setValAfterDecrypt e b))
  = EncryptColumn.Key e.
Proof.
  unfold EncryptColumn.setValAfterDecrypt.
  destruct (EncryptColumn.Val e) as [?|?|k old|?|?|?]; try reflexivity.
  - destruct (binary.Read k b old); reflexivity.
  - destruct (binary.Read Int64 b 0); reflexivity.
  - destruct (binary.Read Uint64 b 0); reflexivity.
  - destruct (json_Unmarshal b _); reflexivity.
Qed.

Lemma EncryptColumn_Scan_Key (e : EncryptColumn.t) (src : Src) :
  EncryptColumn.Key (fst (EncryptColumn.Scan e src)) = EncryptColumn.Key e.
Proof.
  unfold EncryptColumn.Scan.
  destruct (match src with
            | SrcBytes value | SrcString value => EncryptColumn.aesDecrypt e value
            | _ => Err errScanSrc
            end) as [b|err|]; try reflexivity.
  pose proof (setValAfterDecrypt_Key e b) as HK.
  destruct (EncryptColumn.setValAfterDecrypt e b) as [e' [err|]]; exact HK.
Qed.

Lemma decode_frame (sf : SecureField.t) (p : bytes) :
  let sf' := fst (SecureField.decode sf p) in
  SecureField.secret sf' = SecureField.secret sf /\
  SecureField.aead sf' = SecureField.aead sf /\
  SecureField.initOnce sf' = SecureField.initOnce sf /\
  SecureField.initError sf' = SecureField.initError sf.
Proof.
  assert (Hm : forall v,
             let sf' :=
               fst (match msgpack_Unmarshal p v with
                    | (w, Some e0) =>
                        (SecureField.with_isValid (SecureField.with_value sf w)
                           false, Some (errDeserialize e0))
                    | (w, None) => (SecureField.with_value sf w, None)
                    end) in
             SecureField.secret sf' = SecureField.secret sf /\
             SecureField.aead sf' = SecureField.aead sf /\
             SecureField.initOnce sf' = SecureField.initOnce sf /\
             SecureField.initError sf' = SecureField.initError sf).
  { intros v. destruct (msgpack_Unmarshal p v) as [w [e0|]];
      (split; [|split; [|split]]); reflexivity. }
  unfold SecureField.decode.
  destruct (SecureField.value sf) as [?|?|k ?|?|?|?]; try apply Hm;
    try (split; [|split; [|split]]; reflexivity).
  destruct k; try apply Hm;
    destruct (negb _); (split; [|split; [|split]]); reflexivity.
Qed.

Lemma SecureField_Scan_frame (sf : SecureField.t) (src : Src) :
  let sf' := fst (SecureField.Scan sf src) in
  SecureField.secret sf' = SecureField.secret sf /\
  SecureField.aead sf' = SecureField.aead sf /\
  SecureField.initOnce sf' = SecureField.initOnce sf /\
  SecureField.initError sf' = SecureField.initError sf.
Proof.
  unfold SecureField.Scan. cbn zeta.
  destruct (SecureField.initError sf) as [err|] eqn:Hi;
    [cbn [fst]; rewrite Hi; tauto|].
  destruct (match src with SrcBytes v | SrcString v => Some v | _ => None end)
    as [enc|]; [|cbn [fst]; rewrite Hi; tauto].
  destruct (SecureField.aead sf) as [g|] eqn:Ha;
    [|cbn [fst]; rewrite Hi, Ha; tauto].
  destruct (_ <? _)%nat; [cbn [fst]; rewrite Hi, Ha; tauto|].
  destruct (cipher.Open _ _ _ _ _) as [p|e|];
    try (cbn [fst]; rewrite ?Hi, ?Ha; simpl; tauto).
  pose proof (decode_frame sf p) as Hd. cbn zeta in Hd.
  rewrite Hi, Ha in Hd.
  destruct (SecureField.decode sf p) as [sf' [e|]]; exact Hd.
Qed.

(** A holder that the constructor built with a key of valid length keeps its
    cipher context, and no initialisation error, for life. *)
Lemma after_new_context (secret : bytes) (v : GoVal) (sf : SecureField.t) :
  valid_key_length (length secret) ->
  after (SecureField.NewSecureField secret v) sf ->
  SecureField.initError sf = None /\
  SecureField.aead sf = Some (gcm_of secret).
Proof.
  intros Hk. induction 1 as [|sf src Ha IH].
  - rewrite NewSecureField_ok by assumption. split; reflexivity.
  - destruct IH as [Hi Hg].
    destruct (SecureField_Scan_frame sf src) as (_ & Ha' & _ & Hi').
    split; congruence.
Qed.

End frame_facts.

(** X6.  The envelope is exactly 28 bytes longer than the encoded value:
    twelve bytes of nonce in front, sixteen bytes of tag behind, and a
    ciphertext as long as the plaintext.  A fixed-size numeric column
    therefore always stores [size + 28] bytes. *)
Theorem X6_envelope_is_28_bytes_longer `{Runtime} :
  (forall (e : EncryptColumn.t) (r r' : Reader) (env : bytes),
      EncryptColumn.Value e r = (Ok env, r') ->
      exists data,
        EncryptColumn.encode (EncryptColumn.Val e) = Ok data /\
        length env = (length data + 28)%nat) /\
  (forall (sf : SecureField.t) (r r' : Reader) (env : bytes),
      SecureField.Value sf r = (Ok env, r') ->
      exists data,
        SecureField.encode (SecureField.value sf) = Ok data /\
        length env = (length data + 28)%nat) /\
  (forall (e : EncryptColumn.t) (k : NumKind) (z : Z) (r r' : Reader)
          (env : bytes),
      EncryptColumn.Val e = VNum k z ->
      EncryptColumn.Value e r = (Ok env, r') ->
      length env = (size k + 28)%nat).
Proof.
  assert (HE : forall (e : EncryptColumn.t) (r r' : Reader) (env : bytes),
             EncryptColumn.Value e r = (Ok env, r') ->
             exists data,
               EncryptColumn.encode (EncryptColumn.Val e) = Ok data /\
               length env = (length data + 28)%nat).
  { intros e r r' env HV. apply EncryptColumn_Value_inv in HV.
    destruct HV as (_ & b & Hb & HEnc). exists b. split; [exact Hb|].
    apply aesEncrypt_inv in HEnc.
    destruct HEnc as (_ & Hle & _ & c & tag & -> & Hc & Ht & _).
    rewrite !length_app, length_take, Hc, Ht. lia. }
  split; [exact HE|]. split.
  - intros sf r r' env HV. apply SecureField_Value_inv in HV.
    destruct HV as (_ & _ & Hle & _ & g & data & c & tag & _ & Hd & -> & Hc
                    & Ht & _).
    exists data. split; [exact Hd|].
    rewrite !length_app, length_take, Hc, Ht. lia.
  - intros e k z r r' env HVal HV. destruct (HE e r r' env HV) as (data & Hd & ->).
    rewrite HVal in Hd. injection Hd as <-.
    unfold binary.Write. now rewrite length_be_bytes.
Qed.

Lemma X6_witness :
  length (hex "000000000000000000000000cea7403d4d606b44bc6ad0b7aa94ada17fad0a0a9084ea5b")
  = (size Int64 + 28)%nat.
Proof.
  apply (proj2 (proj2 (@X6_envelope_is_28_bytes_longer amd64))
           {| EncryptColumn.Val := VNum Int64 42; EncryptColumn.Valid := true;
              EncryptColumn.Key := repeat 0 32 |}
           Int64 42 (repeat 0 12) []).
  - reflexivity.
  - vm_compute. reflexivity.
Defined.

(** X7.  Whenever [Scan] returns the nil error the holder is valid, whatever
    its flag was before; in particular a holder that an earlier failure
    invalidated is valid again after the next successful [Scan]. *)
Theorem X7_nil_error_means_valid `{Runtime} :
  (forall (e e' : EncryptColumn.t) (src : Src),
      EncryptColumn.Scan e src = (e', Ok tt) ->
      EncryptColumn.Valid e' = true) /\
  (forall (sf sf' : SecureField.t) (src : Src),
      SecureField.Scan sf src = (sf', Ok tt) ->
      SecureField.isValid sf' = true).
Proof.
  split.
  - intros e e' src. unfold EncryptColumn.Scan.
    destruct (match src with
              | SrcBytes value | SrcString value =>
                  EncryptColumn.aesDecrypt e value
              | _ => Err errScanSrc
              end) as [b|err|]; try discriminate.
    destruct (EncryptColumn.setValAfterDecrypt e b) as [e1 [err|]];
      [discriminate|].
    intros [= <-]. reflexivity.
  - intros sf sf' src. unfold SecureField.Scan.
    destruct (SecureField.initError sf); [discriminate|].
    destruct (match src with SrcBytes v | SrcString v => Some v | _ => None end)
      as [enc|]; [|discriminate].
    destruct (SecureField.aead sf) as [g|]; [|discriminate].
    destruct (_ <? _)%nat; [discriminate|].
    destruct (cipher.Open _ _ _ _ _) as [p|e|]; try discriminate.
    destruct (SecureField.decode sf p) as [sf1 [e|]]; [discriminate|].
    intros [= <-]. reflexivity.
Qed.

(** X7 on a field that a forged envelope has invalidated and that then
    scans the authentic envelope of [int16(7)]. *)
Lemma X7_witness :
  let sf0 := SecureField.NewSecureField (repeat 0 16) (VNum Int16 0) in
  let sf1 := fst (@SecureField.Scan amd64 sf0 (SrcBytes (repeat 0 28))) in
  let env :=
    hex "000000000000000000000000038f38c9251f171adff4e5dec111ea6094da" in
  SecureField.isValid sf1 = false /\
  SecureField.isValid (fst (@SecureField.Scan amd64 sf1 (SrcBytes env))) = true.
Proof.
  intros sf0 sf1 env. split; [vm_compute; reflexivity|].
  apply (proj2 (@X7_nil_error_means_valid amd64) sf1 _ (SrcBytes env)).
  vm_compute. reflexivity.
Defined.

(** X8.  [Scan] never writes the key material: an [EncryptColumn] keeps its
    [Key], a [SecureField] its secret, its cipher context, its once flag and
    its initialisation error, on every path, failing or not. *)
Theorem X8_Scan_keeps_the_key `{Runtime} :
  (forall (e : EncryptColumn.t) (src : Src),
      EncryptColumn.Key (fst (EncryptColumn.Scan e src))
      = EncryptColumn.Key e) /\
  (forall (sf : SecureField.t) (src : Src),
      SecureField.secret (fst (SecureField.Scan sf src))
      = SecureField.secret sf /\
      SecureField.aead (fst (SecureField.Scan sf src)) = SecureField.aead sf /\
      SecureField.initOnce (fst (SecureField.Scan sf src))
      = SecureField.initOnce sf /\
      SecureField.initError (fst (SecureField.Scan sf src))
      = SecureField.initError sf).
Proof.
  split; [exact EncryptColumn_Scan_Key | exact SecureField_Scan_frame].
Qed.

(** ** Envelopes that are not what [Value] wrote *)

(** X9.  An envelope of at least twelve but fewer than twenty-eight bytes
    has no room for a tag and never opens.  An [EncryptColumn] with a key of
    valid length returns the authentication error and is left as it was; a
    [SecureField] built with such a key returns the same error wrapped and
    is invalid afterwards. *)
Theorem X9_truncated_envelope_is_rejected `{Runtime} (src : Src) (b : bytes) :
  raw_source src = Some b ->
  (12 <= length b < 28)%nat ->
  (forall e : EncryptColumn.t,
      valid_key_length (length (EncryptColumn.Key e)) ->
      EncryptColumn.Scan e src = (e, Err cipher_errOpen)) /\
  (forall (secret : bytes) (v : GoVal) (sf : SecureField.t),
      valid_key_length (length secret) ->
      after (SecureField.NewSecureField secret v) sf ->
      SecureField.Scan sf src
      = (SecureField.with_isValid sf false, Err (errDecrypt cipher_errOpen))).
Proof.
  intros Hs Hlen.
  assert (Hn : length (take 12 b) = 12%nat) by (rewrite length_take; lia).
  assert (Hc : (length (drop 12 b) < 16)%nat) by (rewrite length_drop; lia).
  split.
  - intros e Hk. apply (EncryptColumn_Scan_decrypt_failure e src b _ Hs).
    rewrite aesDecrypt_long by (assumption || lia).
    now apply Open_short.
  - intros secret v sf Hk Ha.
    destruct (after_new_context secret v sf Hk Ha) as [Hi Hg].
    rewrite (SecureField_Scan_raw sf src b Hs).
    apply (SecureField_Scan_not_opened sf (gcm_of secret)); try assumption;
      [lia | now apply Open_short].
Qed.

Lemma X9_witness :
  let e := {| EncryptColumn.Val := VString (hex "6f6c64");
              EncryptColumn.Valid := true;
              EncryptColumn.Key := repeat 0 16 |} in
  let sf := SecureField.NewSecureField (repeat 0 16) (VString (hex "6f6c64")) in
  @EncryptColumn.Scan amd64 e (SrcString (repeat 9 20))
  = (e, Err cipher_errOpen) /\
  @SecureField.Scan amd64 sf (SrcString (repeat 9 20))
  = (SecureField.with_isValid sf false, Err (errDecrypt cipher_errOpen)).
Proof.
  intros e sf.
  destruct (@X9_truncated_envelope_is_rejected amd64 (SrcString (repeat 9 20))
              (repeat 9 20) eq_refl) as [HE HS]; [simpl; lia|].
  split.
  - apply HE. left. reflexivity.
  - apply (HS (repeat 0 16) (VString (hex "6f6c64")));
      [left; reflexivity | apply after_start].
Defined.

(** X10.  An envelope that differs from one [Value] wrote only within its
    last sixteen bytes, the tag, is rejected: an [EncryptColumn] under the
    same key returns the authentication error and keeps its state, a
    [SecureField] with the same secret returns it wrapped and becomes
    invalid.  No plaintext is stored in either. *)
Theorem X10_tampered_tag_is_rejected `{Runtime} (env env' : bytes) :
  length env' = length env ->
  take (length env - 16) env' = take (length env - 16) env ->
  env' <> env ->
  (forall (e e' : EncryptColumn.t) (r r' : Reader),
      EncryptColumn.Value e r = (Ok env, r') ->
      EncryptColumn.Key e' = EncryptColumn.Key e ->
      EncryptColumn.Scan e' (SrcBytes env') = (e', Err cipher_errOpen)) /\
  (forall (secret : bytes) (v v' : GoVal) (sf sf' : SecureField.t)
          (r r' : Reader),
      after (SecureField.NewSecureField secret v) sf ->
      after (SecureField.NewSecureField secret v') sf' ->
      SecureField.Value sf r = (Ok env, r') ->
      SecureField.Scan sf' (SrcBytes env')
      = (SecureField.with_isValid sf' false,
         Err (errDecrypt cipher_errOpen))).
Proof.
  intros Hlen Htake Hne.
  (* the shape that both seals give the envelope, and what follows from it *)
  assert (Hcore : forall (g : cipher.gcm) (nonce c : bytes),
             length nonce = 12%nat ->
             env = nonce ++ c ++ cipher.auth g nonce c [] ->
             (12 <= length env')%nat /\
             cipher.Open g [] (take 12 env') (drop 12 env') []
             = Err cipher_errOpen).
  { intros g nonce c Hn Henv.
    assert (Hl : length env = (12 + length c + 16)%nat)
      by (rewrite Henv, !length_app, Hn, length_auth; lia).
    split; [lia|].
    assert (Hpre : take (12 + length c) env' = nonce ++ c).
    { replace (12 + length c)%nat with (length env - 16)%nat by lia.
      rewrite Htake, Henv, app_assoc.
      apply take_app_length'. rewrite !length_app, Hn, length_auth. lia. }
    assert (Hsplit : env' = (nonce ++ c) ++ drop (12 + length c) env')
      by (rewrite <- Hpre; symmetry; apply take_drop).
    set (tag' := drop (12 + length c) env') in *.
    assert (Ht : length tag' = 16%nat)
      by (unfold tag'; rewrite length_drop; lia).
    rewrite Hsplit, <- app_assoc.
    rewrite take_app_length', drop_app_length' by congruence.
    apply Open_wrong_tag; [exact Hn | exact Ht|].
    intros Heq. apply Hne. rewrite Hsplit, Henv, Heq, <- app_assoc.
    reflexivity. }
  split.
  - intros e e' r r' HV HK.
    apply EncryptColumn_Value_inv in HV. destruct HV as (_ & b & _ & HE).
    pose proof (aesEncrypt_inv e b r r' env HE) as (Hk & Hr & _).
    rewrite aesEncrypt_eq in HE by assumption.
    injection HE as HE _. symmetry in HE.
    assert (Hn : length (take 12 r) = 12%nat) by (rewrite length_take; lia).
    destruct (Hcore _ _ _ Hn HE) as [Hl HO].
    apply (EncryptColumn_Scan_decrypt_failure e' (SrcBytes env') env' _ eq_refl).
    rewrite aesDecrypt_long by (rewrite ?HK; assumption).
    rewrite HK. exact HO.
  - intros secret v v' sf sf' r r' Ha Ha' HV.
    apply SecureField_Value_inv in HV.
    destruct HV as (Hi & _ & Hr & _ & g & data & c & tag & Hg & Hd & Henv
                    & Hc & Htag & HO).
    assert (Hk : valid_key_length (length secret)).
    { destruct (key_length_ok (length secret)) eqn:Hb;
        [now apply key_length_ok_spec|].
      assert (Hbad : ~ valid_key_length (length secret)).
      { intros Hv. apply key_length_ok_spec in Hv. congruence. }
      rewrite (after_bad_secret secret v sf Hbad Ha) in Hi.
      rewrite NewSecureField_bad in Hi by exact Hbad. discriminate. }
    destruct (after_new_context secret v sf Hk Ha) as [_ Hg1].
    destruct (after_new_context secret v' sf' Hk Ha') as [Hi' Hg'].
    assert (g = gcm_of secret) by congruence. subst g.
    assert (Hn : length (take 12 r) = 12%nat) by (rewrite length_take; lia).
    destruct (Open_Ok_inv _ _ _ _ _ Hn HO) as (body & Hbody & _ & _).
    assert (Hcb : c = body /\ tag = cipher.auth (gcm_of secret) (take 12 r) body []).
    { apply app_inj_2 in Hbody; [exact Hbody|].
      now rewrite length_auth. }
    destruct Hcb as [<- ->].
    destruct (Hcore _ _ _ Hn Henv) as [Hl HO'].
    now apply (SecureField_Scan_not_opened sf' (gcm_of secret)).
Qed.

(** X10 on the envelope of [int16(7)] with its last byte changed from [da]
    to [db]. *)
Lemma X10_witness :
  let sf := SecureField.NewSecureField (repeat 0 16) (VNum Int16 7) in
  @SecureField.Scan amd64 sf
    (SrcBytes (hex "000000000000000000000000038f38c9251f171adff4e5dec111ea6094db"))
  = (SecureField.with_isValid sf false, Err (errDecrypt cipher_errOpen)).
Proof.
  intros sf.
  apply (proj2 (@X10_tampered_tag_is_rejected amd64
                  (hex "000000000000000000000000038f38c9251f171adff4e5dec111ea6094da")
                  (hex "000000000000000000000000038f38c9251f171adff4e5dec111ea6094db")
                  eq_refl eq_refl ltac:(discriminate))
           (repeat 0 16) (VNum Int16 7) (VNum Int16 7) sf sf (repeat 0 12) []).
  - apply after_start.
  - apply after_start.
  - vm_compute. reflexivity.
Defined.

(** X11.  The envelope has no slack: whatever [aesDecrypt] opens is, byte
    for byte, what [aesEncrypt] writes for the recovered plaintext when the
    entropy source delivers the envelope's first twelve bytes.  So a
    [[]byte] or string holder that has just scanned an envelope seals it
    back unchanged, in both implementations. *)
Theorem X11_accepted_envelope_is_a_seal `{Runtime} :
  (forall (e : EncryptColumn.t) (env p : bytes),
      EncryptColumn.aesDecrypt e env = Ok p ->
      EncryptColumn.aesEncrypt e p (take 12 env) = (Ok env, [])) /\
  (forall (e e' : EncryptColumn.t) (env : bytes),
      typeOf (EncryptColumn.Val e) = TBytes \/
      typeOf (EncryptColumn.Val e) = TString ->
      EncryptColumn.Scan e (SrcBytes env) = (e', Ok tt) ->
      EncryptColumn.Value e' (take 12 env) = (Ok env, [])) /\
  (forall (secret : bytes) (v : GoVal) (sf sf' : SecureField.t) (env : bytes),
      after (SecureField.NewSecureField secret v) sf ->
      typeOf (SecureField.value sf) = TBytes \/
      typeOf (SecureField.value sf) = TString ->
      SecureField.Scan sf (SrcBytes env) = (sf', Ok tt) ->
      SecureField.Value sf' (take 12 env) = (Ok env, [])).
Proof.
  assert (Hseal : forall (g : cipher.gcm) (env p : bytes),
             (12 <= length env)%nat ->
             cipher.Open g [] (take 12 env) (drop 12 env) [] = Ok p ->
             cipher.Seal g (take 12 env) (take 12 env) p [] = Ok env).
  { intros g env p Hl HO.
    assert (Hn : length (take 12 env) = 12%nat) by (rewrite length_take; lia).
    apply (Seal_of_Open _ _ _ _ _ Hn) in HO.
    rewrite Seal_eq in HO by exact Hn. rewrite Seal_eq by exact Hn.
    injection HO as HO. cbn [app] in HO. rewrite HO.
    now rewrite take_drop. }
  assert (Hread : forall env : bytes,
             (12 <= length env)%nat ->
             ReadFull (take 12 env) 12 = (Ok (take 12 env), [])).
  { intros env Hl. unfold ReadFull. rewrite length_take.
    destruct (Nat.leb_spec 12 (12 `min` length env)) as [_|?]; [|lia].
    rewrite take_take, drop_ge by (rewrite length_take; lia).
    reflexivity. }
  assert (HE : forall (e : EncryptColumn.t) (env p : bytes),
             EncryptColumn.aesDecrypt e env = Ok p ->
             EncryptColumn.aesEncrypt e p (take 12 env) = (Ok env, [])).
  { intros e env p Hd. apply aesDecrypt_Ok_inv in Hd.
    destruct Hd as (Hk & Hl & HO).
    unfold EncryptColumn.aesEncrypt. rewrite NewCipher_ok by assumption.
    unfold cipher.NewGCM, cipher.NonceSize, cipher.gcmStandardNonceSize.
    rewrite Hread by exact Hl. fold (gcm_of (EncryptColumn.Key e)).
    now rewrite (Hseal _ env p Hl HO). }
  split; [exact HE|]. split.
  - intros e e' env Hty HS.
    destruct (EncryptColumn.aesDecrypt e env) as [p| |] eqn:Hd;
      try (unfold EncryptColumn.Scan in HS; rewrite Hd in HS; discriminate).
    pose proof (aesDecrypt_Ok_inv e env p Hd) as (Hk & _ & _).
    rewrite (EncryptColumn_Scan_opened e env p Hd) in HS.
    assert (He' : e' = {| EncryptColumn.Val := EncryptColumn.Val e';
                          EncryptColumn.Valid := true;
                          EncryptColumn.Key := EncryptColumn.Key e |} /\
                  EncryptColumn.encode (EncryptColumn.Val e') = Ok p).
    { unfold EncryptColumn.setValAfterDecrypt in HS.
      destruct (EncryptColumn.Val e) as [?|?|?|?|?|?];
        destruct Hty as [Hty|Hty]; try discriminate Hty;
        injection HS as <-; split; reflexivity. }
    destruct He' as [He' Henc].
    rewrite (EncryptColumn_Value_ok e' (take 12 env) p).
    + rewrite He'. apply (HE e env p Hd).
    + now rewrite He'.
    + now rewrite He'.
    + exact Henc.
  - intros secret v sf sf' env Ha Hty HS.
    assert (Hk : valid_key_length (length secret)).
    { destruct (key_length_ok (length secret)) eqn:Hb;
        [now apply key_length_ok_spec|].
      assert (Hbad : ~ valid_key_length (length secret)).
      { intros Hv. apply key_length_ok_spec in Hv. congruence. }
      rewrite (after_bad_secret secret v sf Hbad Ha) in HS.
      rewrite (Scan_initError_fixed _ _ errSecretLength) in HS;
        [discriminate | now rewrite NewSecureField_bad]. }
    destruct (after_new_context secret v sf Hk Ha) as [Hi Hg].
    destruct (Nat.lt_ge_cases (length env) 12) as [Hlt|Hl].
    { rewrite (SecureField_Scan_short sf (SrcBytes env) env _ Hi Hg eq_refl Hlt)
        in HS.
      discriminate. }
    destruct (cipher.Open (gcm_of secret) [] (take 12 env) (drop 12 env) [])
      as [p|err|] eqn:HO.
    + rewrite (SecureField_Scan_opened sf _ env p Hi Hg Hl HO) in HS.
      assert (Hsf : SecureField.initError sf' = None /\
                    SecureField.isValid sf' = true /\
                    SecureField.aead sf' = Some (gcm_of secret) /\
                    SecureField.encode (SecureField.value sf') = Ok p).
      { unfold SecureField.decode in HS.
        destruct (SecureField.value sf) as [?|?|?|?|?|?];
          destruct Hty as [Hty|Hty]; try discriminate Hty;
          injection HS as <-; cbn; rewrite ?Hi, ?Hg; tauto. }
      destruct Hsf as (Hi' & Hv' & Hg' & Henc).
      unfold SecureField.Value. rewrite Hi', Hv', Henc, Hg'. cbn [negb].
      unfold cipher.NonceSize, cipher.gcmStandardNonceSize.
      rewrite Hread by exact Hl. now rewrite (Hseal _ env p Hl HO).
    + rewrite (SecureField_Scan_not_opened sf _ env err Hi Hg Hl HO) in HS.
      discriminate.
    + exfalso. apply (Open_no_panic (gcm_of secret) (take 12 env)
                        (drop 12 env) []); [|exact HO].
      rewrite length_take. lia.
Qed.

Lemma X11_witness :
  let env :=
    hex "000000000000000000000000038f38c9251f171adff4e5dec111ea6094da" in
  let sf := SecureField.NewSecureField (repeat 0 16) (VBytes []) in
  @SecureField.Value amd64
    (SecureField.NewSecureField (repeat 0 16) (VBytes (hex "0007")))
    (take 12 env)
  = (Ok env, []).
Proof.
  intros env sf.
  apply (proj2 (proj2 (@X11_accepted_envelope_is_a_seal amd64))
           (repeat 0 16) (VBytes []) sf _ env).
  - apply after_start.
  - left. reflexivity.
  - vm_compute. reflexivity.
Defined.

(** ** Holders built by the constructor, and holders that were not *)

(** X12.  A [SecureField] that [NewSecureField] built never panics in
    [Scan], whatever the secret, the source and the history of the holder;
    and its [Value] never panics either unless msgpack does. *)
Theorem X12_constructed_field_never_panics `{Runtime}
    (secret : bytes) (v : GoVal) (sf : SecureField.t) :
  after (SecureField.NewSecureField secret v) sf ->
  (forall src : Src, snd (SecureField.Scan sf src) <> Panic) /\
  (forall r : Reader,
      SecureField.encode (SecureField.value sf) <> Panic ->
      fst (SecureField.Value sf r) <> Panic).
Proof.
  intros Ha.
  destruct (key_length_ok (length secret)) eqn:Hb.
  - apply key_length_ok_spec in Hb.
    destruct (after_new_context secret v sf Hb Ha) as [Hi Hg]. split.
    + intros src. unfold SecureField.Scan. rewrite Hi, Hg.
      destruct (match src with SrcBytes v0 | SrcString v0 => Some v0
                | _ => None end) as [enc|]; [|discriminate].
      unfold cipher.NonceSize, cipher.gcmStandardNonceSize.
      destruct (Nat.ltb_spec (length enc) 12) as [?|Hl]; [discriminate|].
      destruct (cipher.Open _ _ _ _ _) as [p|err|] eqn:HO; [|discriminate|].
      * destruct (SecureField.decode sf p) as [sf' [e|]]; discriminate.
      * exfalso.
        assert (Hn : length (take 12 enc) = 12%nat)
          by (rewrite length_take; lia).
        exact (Open_no_panic _ _ _ _ Hn HO).
    + intros r Henc. unfold SecureField.Value. rewrite Hi, Hg.
      destruct (negb _); [discriminate|].
      destruct (SecureField.encode _) as [data|err|];
        [|discriminate|contradiction].
      unfold cipher.NonceSize, cipher.gcmStandardNonceSize, ReadFull.
      destruct (Nat.leb_spec 12 (length r)) as [Hl|?]; [|discriminate].
      rewrite Seal_eq by (rewrite length_take; lia). discriminate.
  - assert (Hbad : ~ valid_key_length (length secret)).
    { intros Hv. apply key_length_ok_spec in Hv. congruence. }
    rewrite (after_bad_secret secret v sf Hbad Ha).
    assert (Hi : SecureField.initError (SecureField.NewSecureField secret v)
                 = Some errSecretLength) by now rewrite NewSecureField_bad.
    split.
    + intros src. now rewrite (Scan_initError_fixed _ src _ Hi).
    + intros r _. now rewrite (SecureField_Value_initError _ r _ Hi).
Qed.

Lemma X12_witness :
  let sf := SecureField.NewSecureField (repeat 0 16) (VString []) in
  snd (@SecureField.Scan amd64 sf (SrcBytes [1; 2; 3])) <> Panic.
Proof.
  intros sf.
  apply (proj1 (@X12_constructed_field_never_panics amd64 (repeat 0 16)
                  (VString []) sf (after_start _))).
Defined.

(** X13.  A [SecureField] that starts as the zero value of the struct
    ([var sf SecureField[T]]) has no cipher context and never gets one:
    [Value] refuses it as invalid, [Scan] of any byte slice or string panics
    on the nil [aead], [Scan] of any other source returns the unsupported
    type error, and none of these calls changes it. *)
Theorem X13_zero_value_field_is_unusable `{Runtime}
    (zero : GoVal) (sf : SecureField.t) :
  after (SecureField.zeroValue zero) sf ->
  sf = SecureField.zeroValue zero /\
  (forall r : Reader, SecureField.Value sf r = (Err errFieldInvalid, r)) /\
  (forall (src : Src) (b : bytes),
      raw_source src = Some b -> SecureField.Scan sf src = (sf, Panic)) /\
  (forall src : Src,
      raw_source src = None -> SecureField.Scan sf src = (sf, Err errSrcType)).
Proof.
  intros Ha.
  assert (Hscan : forall src,
             fst (SecureField.Scan (SecureField.zeroValue zero) src)
             = SecureField.zeroValue zero)
    by (intros src; destruct src; reflexivity).
  assert (Hsf : sf = SecureField.zeroValue zero).
  { induction Ha as [|sf src Ha IH]; [reflexivity|]. rewrite IH. apply Hscan. }
  subst sf. split; [reflexivity|]. split; [reflexivity|]. split.
  - intros src b Hs. destruct src; try discriminate Hs; reflexivity.
  - intros src Hs. destruct src; try discriminate Hs; reflexivity.
Qed.

Lemma X13_witness :
  @SecureField.Scan amd64 (SecureField.zeroValue (VString []))
     (SrcBytes (repeat 0 28))
  = (SecureField.zeroValue (VString []), Panic).
Proof.
  apply (proj1 (proj2 (proj2
           (@X13_zero_value_field_is_unusable amd64 (VString [])
              _ (after_start _)))) (SrcBytes (repeat 0 28)) (repeat 0 28)).
  reflexivity.
Defined.

(** ** The held value after a decode that failed, and across holders *)

(** X14.  What an [EncryptColumn] holds after [Scan] opened the envelope but
    could not decode it.  For a fixed-size numeric [T] the old value stays;
    for [int] and [uint] it is overwritten with 0, because the conversion of
    the temporary is assigned whether or not [binary.Read] failed.  In both
    cases the column is invalid and the read error is returned. *)
Theorem X14_value_after_failed_decode `{Runtime}
    (e : EncryptColumn.t) (env p : bytes) :
  EncryptColumn.aesDecrypt e env = Ok p ->
  (forall (k : NumKind) (old : Z),
      EncryptColumn.Val e = VNum k old ->
      (length p < size k)%nat ->
      exists err,
        EncryptColumn.Scan e (SrcBytes env)
        = ({| EncryptColumn.Val := VNum k old; EncryptColumn.Valid := false;
              EncryptColumn.Key := EncryptColumn.Key e |}, Err err) /\
        classify err = DecodeError) /\
  (forall old : Z,
      EncryptColumn.Val e = VInt old ->
      (length p < 8)%nat ->
      exists err,
        EncryptColumn.Scan e (SrcBytes env)
        = ({| EncryptColumn.Val := VInt 0; EncryptColumn.Valid := false;
              EncryptColumn.Key := EncryptColumn.Key e |}, Err err) /\
        classify err = DecodeError) /\
  (forall old : Z,
      EncryptColumn.Val e = VUint old ->
      (length p < 8)%nat ->
      exists err,
        EncryptColumn.Scan e (SrcBytes env)
        = ({| EncryptColumn.Val := VUint 0; EncryptColumn.Valid := false;
              EncryptColumn.Key := EncryptColumn.Key e |}, Err err) /\
        classify err = DecodeError).
Proof.
  intros Hd. rewrite (EncryptColumn_Scan_opened e env p Hd).
  unfold EncryptColumn.setValAfterDecrypt.
  split; [|split].
  - intros k old HVal Hlen. rewrite HVal.
    destruct (binary_Read_short k p old Hlen) as (err & -> & Hc).
    exists err. split; [reflexivity | exact Hc].
  - intros old HVal Hlen. rewrite HVal.
    destruct (binary_Read_short Int64 p 0 Hlen) as (err & -> & Hc).
    exists err. split; [|exact Hc].
    unfold EncryptColumn.with_Valid, EncryptColumn.with_Val; cbn.
    destruct arch; reflexivity.
  - intros old HVal Hlen. rewrite HVal.
    destruct (binary_Read_short Uint64 p 0 Hlen) as (err & -> & Hc).
    exists err. split; [|exact Hc].
    unfold EncryptColumn.with_Valid, EncryptColumn.with_Val; cbn.
    destruct arch; reflexivity.
Qed.

(** X14 on an [int] column holding 99 and an [int32] column holding 99 that
    scan the authentic envelope of a two-byte plaintext. *)
Lemma X14_witness :
  let env :=
    hex "000000000000000000000000038f38c9251f171adff4e5dec111ea6094da" in
  (exists err,
      @EncryptColumn.Scan amd64
        {| EncryptColumn.Val := VNum Int32 99; EncryptColumn.Valid := true;
           EncryptColumn.Key := repeat 0 16 |} (SrcBytes env)
      = ({| EncryptColumn.Val := VNum Int32 99; EncryptColumn.Valid := false;
            EncryptColumn.Key := repeat 0 16 |}, Err err) /\
      classify err = DecodeError) /\
  (exists err,
      @EncryptColumn.Scan amd64
        {| EncryptColumn.Val := VInt 99; EncryptColumn.Valid := true;
           EncryptColumn.Key := repeat 0 16 |} (SrcBytes env)
      = ({| EncryptColumn.Val := VInt 0; EncryptColumn.Valid := false;
            EncryptColumn.Key := repeat 0 16 |}, Err err) /\
      classify err = DecodeError).
Proof.
  intros env. split.
  - apply (proj1 (@X14_value_after_failed_decode amd64
                    {| EncryptColumn.Val := VNum Int32 99;
                       EncryptColumn.Valid := true;
                       EncryptColumn.Key := repeat 0 16 |} env (hex "0007")
                    ltac:(vm_compute; reflexivity)) Int32 99);
      [reflexivity | simpl; lia].
  - apply (proj1 (proj2 (@X14_value_after_failed_decode amd64
                    {| EncryptColumn.Val := VInt 99;
                       EncryptColumn.Valid := true;
                       EncryptColumn.Key := repeat 0 16 |} env (hex "0007")
                    ltac:(vm_compute; reflexivity))) 99);
      [reflexivity | simpl; lia].
Defined.

Lemma encode_agree `{Runtime} (v : GoVal) :
  primitive_sf (typeOf v) = true ->
  SecureField.encode v = EncryptColumn.encode v.
Proof.
  destruct v as [?|?|k z|?|?|?]; simpl; try discriminate; try reflexivity.
  destruct k; simpl; try discriminate; intros _.
  - unfold binary.Write. cbn [size be_bytes]. now rewrite Z.shiftr_0_r.
  - reflexivity.
Qed.

Lemma primitive_sf_primitive (ty : GoType) :
  primitive_sf ty = true -> primitive ty = true.
Proof. destruct ty; simpl; try discriminate; reflexivity. Qed.

(** X15.  For the four types that both holders treat natively (string,
    [[]byte], [int8], [int16]) the two implementations write the same
    envelope format: what an [EncryptColumn] sealed, a [SecureField] with the
    same key reads back, and the other way round. *)
Theorem X15_holders_read_each_other `{Runtime} :
  (forall (e : EncryptColumn.t) (old : GoVal) (r r' : Reader) (env : bytes),
      primitive_sf (typeOf (EncryptColumn.Val e)) = true ->
      in_range (EncryptColumn.Val e) ->
      typeOf old = typeOf (EncryptColumn.Val e) ->
      EncryptColumn.Value e r = (Ok env, r') ->
      SecureField.Scan
        (SecureField.NewSecureField (EncryptColumn.Key e) old) (SrcBytes env)
      = (SecureField.NewSecureField (EncryptColumn.Key e) (EncryptColumn.Val e),
         Ok tt)) /\
  (forall (secret : bytes) (v : GoVal) (e' : EncryptColumn.t) (r r' : Reader)
          (env : bytes),
      primitive_sf (typeOf v) = true ->
      in_range v ->
      EncryptColumn.Key e' = secret ->
      typeOf (EncryptColumn.Val e') = typeOf v ->
      SecureField.Value (SecureField.NewSecureField secret v) r = (Ok env, r') ->
      EncryptColumn.Scan e' (SrcBytes env)
      = ({| EncryptColumn.Val := v; EncryptColumn.Valid := true;
            EncryptColumn.Key := secret |}, Ok tt)).
Proof.
  split.
  - intros e old r r' env Hp Hr Ht HV.
    apply EncryptColumn_Value_inv in HV. destruct HV as (_ & b & Hb & HE).
    apply aesEncrypt_inv in HE.
    destruct HE as (Hk & Hle & _ & c & tag & -> & Hc & Htag & HO).
    assert (Hn : length (take 12 r) = 12%nat) by (rewrite length_take; lia).
    set (sf := SecureField.NewSecureField (EncryptColumn.Key e) old).
    assert (Hsf : sf = {| SecureField.value := old; SecureField.isValid := true;
                          SecureField.secret := EncryptColumn.Key e;
                          SecureField.aead := Some (gcm_of (EncryptColumn.Key e));
                          SecureField.initOnce := true;
                          SecureField.initError := None |})
      by (unfold sf; now rewrite NewSecureField_ok).
    destruct (SecureField_decode_encode sf (EncryptColumn.Val e) Hp)
      as (b' & Hb' & Hdec); [rewrite Hsf; exact Ht | exact Hr |].
    rewrite encode_agree in Hb' by exact Hp.
    assert (b' = b) by congruence. subst b'.
    rewrite (SecureField_Scan_opened sf (gcm_of (EncryptColumn.Key e)) _ b).
    + rewrite Hdec, Hsf. rewrite NewSecureField_ok by exact Hk. reflexivity.
    + now rewrite Hsf.
    + now rewrite Hsf.
    + rewrite length_app. lia.
    + rewrite take_app_length', drop_app_length' by congruence. exact HO.
  - intros secret v e' r r' env Hp Hr HK Ht HV.
    apply SecureField_Value_inv in HV.
    destruct HV as (Hi & _ & Hle & _ & g & data & c & tag & Hg & Hd & -> & Hc
                    & Htag & HO).
    assert (Hk : valid_key_length (length secret)).
    { destruct (key_length_ok (length secret)) eqn:Hb;
        [now apply key_length_ok_spec|].
      rewrite NewSecureField_bad in Hi; [discriminate|].
      intros Hv. apply key_length_ok_spec in Hv. congruence. }
    rewrite NewSecureField_ok in Hg, Hd by exact Hk. cbn in Hg, Hd.
    injection Hg as <-.
    assert (Hn : length (take 12 r) = 12%nat) by (rewrite length_take; lia).
    destruct (EncryptColumn_decode_encode e' v
                (primitive_sf_primitive _ Hp) Ht Hr) as (b' & Hb' & Hdec).
    rewrite <- encode_agree in Hb' by exact Hp.
    assert (b' = data) by congruence. subst b'.
    rewrite (EncryptColumn_Scan_opened e' _ data).
    + rewrite Hdec. unfold EncryptColumn.with_Valid, EncryptColumn.with_Val.
      cbn. now rewrite HK.
    + rewrite aesDecrypt_long.
      * rewrite HK, take_app_length', drop_app_length' by congruence.
        exact HO.
      * now rewrite HK.
      * rewrite length_app. lia.
Qed.

(** X15 on [int16(7)]: the envelope a [SecureField] writes with a zero
    nonce is read by an [EncryptColumn] under the same key. *)
Lemma X15_witness :
  @EncryptColumn.Scan amd64
    {| EncryptColumn.Val := VNum Int16 0; EncryptColumn.Valid := false;
       EncryptColumn.Key := repeat 0 16 |}
    (SrcBytes (hex "000000000000000000000000038f38c9251f171adff4e5dec111ea6094da"))
  = ({| EncryptColumn.Val := VNum Int16 7; EncryptColumn.Valid := true;
        EncryptColumn.Key := repeat 0 16 |}, Ok tt).
Proof.
  apply (proj2 (@X15_holders_read_each_other amd64) (repeat 0 16)
           (VNum Int16 7) _ (repeat 0 12) []).
  - reflexivity.
  - simpl. lia.
  - reflexivity.
  - reflexivity.
  - vm_compute. reflexivity.
Defined.

(** X16.  The encoding of [int] and [uint] is eight bytes on every
    platform, and decoding narrows without a check: an [int] column reads
    any encoded 64-bit value without error and stores it wrapped to the
    platform's word, so a value written on a 64-bit platform that does not
    fit 32 bits silently changes when it is read on a 32-bit one. *)
Theorem X16_int_is_narrowed_silently `{Runtime}
    (e : EncryptColumn.t) (old z : Z) :
  (EncryptColumn.Val e = VInt old ->
   - 2 ^ 63 <= z < 2 ^ 63 ->
   exists b,
     EncryptColumn.encode (VInt z) = Ok b /\ length b = 8%nat /\
     EncryptColumn.setValAfterDecrypt e b
     = (EncryptColumn.with_Val e (VInt (wrap_signed (intSize arch) z)), None)) /\
  (EncryptColumn.Val e = VUint old ->
   0 <= z < 2 ^ 64 ->
   exists b,
     EncryptColumn.encode (VUint z) = Ok b /\ length b = 8%nat /\
     EncryptColumn.setValAfterDecrypt e b
     = (EncryptColumn.with_Val e (VUint (wrap_unsigned (intSize arch) z)),
        None)).
Proof.
  split.
  - intros HVal Hz. eexists. split; [reflexivity|].
    split; [apply length_be_bytes|].
    unfold EncryptColumn.setValAfterDecrypt. rewrite HVal.
    now rewrite binary_Read_Write by exact Hz.
  - intros HVal Hz. eexists. split; [reflexivity|].
    split; [apply length_be_bytes|].
    unfold EncryptColumn.setValAfterDecrypt. rewrite HVal.
    now rewrite binary_Read_Write by exact Hz.
Qed.

(** X16 on a 32-bit platform: 2^32 + 5 is read back as 5. *)
Lemma X16_witness :
  let e := {| EncryptColumn.Val := VInt 0; EncryptColumn.Valid := true;
              EncryptColumn.Key := repeat 0 16 |} in
  exists b,
    @EncryptColumn.encode i386 (VInt (2 ^ 32 + 5)) = Ok b /\ length b = 8%nat /\
    @EncryptColumn.setValAfterDecrypt i386 e b
    = (EncryptColumn.with_Val e (VInt 5), None).
Proof.
  intros e.
  apply (proj1 (@X16_int_is_narrowed_silently i386 e 0 (2 ^ 32 + 5)));
    [reflexivity | split; [apply Z.leb_le | apply Z.ltb_lt]; reflexivity].
Defined.

(** ** Errors and panics of [Scan] *)

(** X17.  A [Scan] that returns an error never leaves a changed value
    marked valid: either the holder is exactly what it was before the call,
    or its validity flag is false. *)
Theorem X17_error_leaves_holder_unchanged_or_invalid `{Runtime} :
  (forall (e e' : EncryptColumn.t) (src : Src) (err : error),
      EncryptColumn.Scan e src = (e', Err err) ->
      e' = e \/ EncryptColumn.Valid e' = false) /\
  (forall (sf sf' : SecureField.t) (src : Src) (err : error),
      SecureField.Scan sf src = (sf', Err err) ->
      sf' = sf \/ SecureField.isValid sf' = false).
Proof.
  split.
  - intros e e' src err. unfold EncryptColumn.Scan.
    destruct (match src with
              | SrcBytes value | SrcString value =>
                  EncryptColumn.aesDecrypt e value
              | _ => Err errScanSrc
              end) as [b|err0|].
    + destruct (EncryptColumn.setValAfterDecrypt e b) as [e1 [err1|]];
        [|discriminate].
      intros [= <- _]. right. reflexivity.
    + intros [= <- _]. left. reflexivity.
    + discriminate.
  - intros sf sf' src err. unfold SecureField.Scan.
    destruct (SecureField.initError sf); [intros [= <- _]; now left|].
    destruct (match src with SrcBytes v | SrcString v => Some v | _ => None end)
      as [enc|]; [|intros [= <- _]; now left].
    destruct (SecureField.aead sf) as [g|]; [|discriminate].
    destruct (_ <? _)%nat; [intros [= <- _]; now left|].
    destruct (cipher.Open _ _ _ _ _) as [p|e|]; [| |discriminate].
    + destruct (SecureField.decode sf p) as [sf1 [e|]] eqn:Hd; [|discriminate].
      intros [= <- _].
      destruct (SecureField_decode_failure_flag sf sf1 p e Hd)
        as [[Hv _] | [Hs _]]; [right; exact Hv | left; exact Hs].
    + intros [= <- _]. right. reflexivity.
Qed.

Lemma X17_witness :
  let sf := SecureField.NewSecureField (repeat 0 16) (VString (hex "6f6c64")) in
  fst (@SecureField.Scan amd64 sf (SrcBytes (repeat 0 28))) = sf \/
  SecureField.isValid (fst (@SecureField.Scan amd64 sf (SrcBytes (repeat 0 28))))
  = false.
Proof.
  intros sf.
  apply (proj2 (@X17_error_leaves_holder_unchanged_or_invalid amd64)
           sf _ (SrcBytes (repeat 0 28)) (errDecrypt cipher_errOpen)).
  vm_compute. reflexivity.
Defined.

(** X18.  [EncryptColumn.Scan] panics in exactly one situation: the key has
    a valid length and the source is a byte slice or a string shorter than
    twelve bytes.  A key of the wrong length, any other source type and any
    input of twelve bytes or more give an error or a result, never a
    panic. *)
Theorem X18_EncryptColumn_Scan_panics_only_on_short_input `{Runtime}
    (e : EncryptColumn.t) (src : Src) :
  snd (EncryptColumn.Scan e src) = Panic <->
  valid_key_length (length (EncryptColumn.Key e)) /\
  exists b, raw_source src = Some b /\ (length b < 12)%nat.
Proof.
  split.
  - intros HP.
    destruct (raw_source src) as [b|] eqn:Hs.
    + rewrite (EncryptColumn_Scan_raw e src b Hs) in HP.
      destruct (key_length_ok (length (EncryptColumn.Key e))) eqn:Hk.
      * apply key_length_ok_spec in Hk. split; [exact Hk|].
        exists b. split; [reflexivity|].
        destruct (Nat.lt_ge_cases (length b) 12) as [Hlt|Hge]; [exact Hlt|].
        exfalso. unfold EncryptColumn.Scan in HP.
        rewrite aesDecrypt_long in HP by assumption.
        assert (Hn : length (take 12 b) = 12%nat)
          by (rewrite length_take; lia).
        pose proof (Open_no_panic (gcm_of (EncryptColumn.Key e)) (take 12 b)
                      (drop 12 b) [] Hn) as Hnp.
        destruct (cipher.Open _ _ _ _ _) as [p|err|];
          [|discriminate|contradiction].
        destruct (EncryptColumn.setValAfterDecrypt e p) as [e1 [err|]];
          discriminate.
      * exfalso. unfold EncryptColumn.Scan in HP.
        rewrite aesDecrypt_bad_key in HP; [discriminate|].
        intros Hv. apply key_length_ok_spec in Hv. congruence.
    + rewrite (EncryptColumn_Scan_not_raw e src Hs) in HP. discriminate.
  - intros (Hk & b & Hs & Hlen).
    rewrite (EncryptColumn_Scan_raw e src b Hs).
    unfold EncryptColumn.Scan.
    now rewrite (aesDecrypt_short e b Hk Hlen).
Qed.

Lemma X18_witness :
  snd (@EncryptColumn.Scan amd64
         {| EncryptColumn.Val := VString []; EncryptColumn.Valid := true;
            EncryptColumn.Key := repeat 0 16 |} (SrcString [1; 2; 3]))
  = Panic.
Proof.
  apply (proj2 (@X18_EncryptColumn_Scan_panics_only_on_short_input amd64 _ _)).
  split; [left; reflexivity|].
  exists [1; 2; 3]. split; [reflexivity | simpl; lia].
Defined.

(** ** The nonce *)



